(** * Mythril analysis core: plugin loader, issue annotation and the
      "multiple sends" detector.

    A shallow embedding of

    - [mythril/laser/plugin/loader.py]        (module [Loader]),
    - [mythril/analysis/issue_annotation.py]  (module [IssueAnnotation]),
    - [mythril/analysis/modules/multiple_sends.py] (module [MultipleSends]),

    followed by the properties established about them.  Python objects that
    are mutated in place and may be shared (the [call_offsets] lists) live in
    an explicit heap; the solver bridge is an oracle threaded through the
    detector as state. *)

From stdpp Require Import base list strings gmap.
From Stdlib Require Import ZArith.

Local Open Scope Z_scope.

(** ** Python plumbing shared by the three files *)

Module Py.

(** Exceptions that the modelled code constructs. *)
Inductive Exception :=
| ValueError (msg : string).

(** Values a call may hand back to its caller: [None], or an exception
    instance used as an ordinary value. *)
Inductive Value :=
| VNone
| VException (e : Exception).

(** How a call ends: it returns a value, or an exception propagates. *)
Inductive Outcome (A : Type) :=
| Returned (a : A)
| Raised (e : Exception).
Arguments Returned {A} a.
Arguments Raised {A} e.

(** Records written through the [logging] module. *)
Inductive LogRecord :=
| Info (msg : string)
| Warning (msg : string).

(** A [dict] with string keys: entries in insertion order, one per key. *)
Definition dict (V : Type) := list (string * V).

Section Dict.
Context {V : Type}.

(** [k in d] *)
Fixpoint contains (d : dict V) (k : string) : bool :=
  match d with
  | [] => false
  | (k', _) :: d' => if decide (k' = k) then true else contains d' k
  end.

(** [d[k]], for a key that is present. *)
Fixpoint get (d : dict V) (k : string) : option V :=
  match d with
  | [] => None
  | (k', v) :: d' => if decide (k' = k) then Some v else get d' k
  end.

(** [d[k] = v]: an existing key keeps its position, a new one goes last. *)
Fixpoint set (d : dict V) (k : string) (v : V) : dict V :=
  match d with
  | [] => [(k, v)]
  | (k', v') :: d' =>
      if decide (k' = k) then (k', v) :: d' else (k', v') :: set d' k v
  end.

(** [d.items()] *)
Definition items (d : dict V) : list (string * V) := d.

(** [len(d)] *)
Definition len (d : dict V) : nat := length d.

(** Dictionaries built by [set] from the empty one never repeat a key. *)
Definition wf (d : dict V) : Prop := NoDup d.*1.
End Dict.

End Py.

(** ** [mythril/laser/plugin/loader.py] *)

Module Loader.
Import Py.

Section Loader.
(** The symbolic executor, owned by the interpreter. *)
Context {LaserEVM : Type}.

(** A plugin instance: all the loader does with it is [initialize]. *)
Record LaserPlugin := { initialize : LaserEVM → LaserEVM }.

(** [PluginBuilder]: its declared name, its [enabled] flag, and what
    calling it constructs. *)
Record PluginBuilder := {
  plugin_name : string;
  enabled : bool;
  __call__ : unit → LaserPlugin;
}.

Definition set_enabled (b : PluginBuilder) (flag : bool) : PluginBuilder :=
  {| plugin_name := plugin_name b; enabled := flag; __call__ := __call__ b |}.

Record LaserPluginLoader := {
  laser_plugin_builders : dict PluginBuilder;
}.

(** [__init__] *)
Definition __init__ : LaserPluginLoader :=
  {| laser_plugin_builders := [] |}.

(** [load]: the new loader and the records it logs. *)
Definition load (self : LaserPluginLoader) (plugin_builder : PluginBuilder)
  : LaserPluginLoader * list LogRecord :=
  let log1 := Info ("Loading laser plugin: " +:+ plugin_name plugin_builder) in
  if contains (laser_plugin_builders self) (plugin_name plugin_builder) then
    (self,
     [log1;
      Warning ("Laser plugin with name " +:+ plugin_name plugin_builder
               +:+ " was already loaded, skipping...")])
  else
    ({| laser_plugin_builders :=
          set (laser_plugin_builders self) (plugin_name plugin_builder)
              plugin_builder |},
     [log1]).

(** [is_enabled] *)
Definition is_enabled (self : LaserPluginLoader) (plugin_name : string) : bool :=
  if negb (contains (laser_plugin_builders self) plugin_name) then false
  else
    match get (laser_plugin_builders self) plugin_name with
    | Some b => enabled b
    | None => false
    end.

(** [enable]: how the call ends, and the loader afterwards.  The missing
    name is answered by a [return] of the exception instance. *)
Definition enable (self : LaserPluginLoader) (plugin_name : string)
  : Outcome Value * LaserPluginLoader :=
  if negb (contains (laser_plugin_builders self) plugin_name) then
    (Returned
       (VException
          (ValueError ("Plugin with name: " +:+ plugin_name +:+ " was not loaded"))),
     self)
  else
    match get (laser_plugin_builders self) plugin_name with
    | Some b =>
        (Returned VNone,
         {| laser_plugin_builders :=
              set (laser_plugin_builders self) plugin_name (set_enabled b true) |})
    | None => (Returned VNone, self)
    end.

(** What [instrument_virtual_machine] does besides changing the
    executor: log records, builder calls and plugin initialisations. *)
Inductive Event :=
| Logged (r : LogRecord)
| Instantiated (name : string)
| Initialized (name : string).

(** Truth value of an [Optional[List[str]]]: [None] and [[]] are false. *)
Definition truthy (with_plugins : option (list string)) : bool :=
  match with_plugins with
  | Some (_ :: _) => true
  | _ => false
  end.

(** The conditional expression assigned to [enabled] in the loop. *)
Definition effective_enabled (with_plugins : option (list string))
    (plugin_name : string) (plugin_builder : PluginBuilder) : bool :=
  if negb (truthy with_plugins) then enabled plugin_builder
  else bool_decide (plugin_name ∈ default [] with_plugins).

(** The [for] loop over [laser_plugin_builders.items()]. *)
Fixpoint instrument_loop (entries : list (string * PluginBuilder))
    (symbolic_vm : LaserEVM) (with_plugins : option (list string))
  : LaserEVM * list Event :=
  match entries with
  | [] => (symbolic_vm, [])
  | (plugin_name, plugin_builder) :: rest =>
      if negb (effective_enabled with_plugins plugin_name plugin_builder) then
        instrument_loop rest symbolic_vm with_plugins
      else
        let plugin := __call__ plugin_builder () in
        let '(vm', evs) :=
          instrument_loop rest (initialize plugin symbolic_vm) with_plugins in
        (vm',
         Logged (Info ("Instrumenting symbolic vm with plugin: " +:+ plugin_name))
           :: Instantiated plugin_name :: Initialized plugin_name :: evs)
  end.

Definition instrument_virtual_machine (self : LaserPluginLoader)
    (symbolic_vm : LaserEVM) (with_plugins : option (list string))
  : LaserEVM * list Event :=
  instrument_loop (items (laser_plugin_builders self)) symbolic_vm with_plugins.

End Loader.

Arguments LaserPlugin : clear implicits.
Arguments PluginBuilder : clear implicits.
Arguments LaserPluginLoader : clear implicits.
End Loader.


(** ** [mythril/analysis/report.py]: the [Issue] record, as constructed by
    the detector (one field per keyword argument). *)

Module Report.

Record Issue {TransactionSequence : Type} := {
  contract : string;
  function_name : string;
  address : Z;
  swc_id : string;
  bytecode : string;
  title : string;
  severity : string;
  description_head : string;
  description_tail : string;
  gas_used : Z * Z;
  transaction_sequence : TransactionSequence;
}.
Arguments Issue : clear implicits.

End Report.

(** ** [mythril/analysis/issue_annotation.py] *)

Module IssueAnnotation.

Section IssueAnnotation.
(** [Bool] of [mythril.laser.smt], the issue type and the detector type. *)
Context {SmtBool Issue Detector : Type}.

Record IssueAnnotation := {
  conditions : list SmtBool;
  issue : Issue;
  detector : Detector;
}.

Definition __init__ (conditions : list SmtBool) (issue : Issue)
    (detector : Detector) : IssueAnnotation :=
  {| conditions := conditions; issue := issue; detector := detector |}.

Definition persist_to_world_state (self : IssueAnnotation) : bool := true.

(** A property: read as an attribute, computed by this body. *)
Definition persist_over_calls (self : IssueAnnotation) : bool := true.

End IssueAnnotation.

Arguments IssueAnnotation : clear implicits.
End IssueAnnotation.

(** ** [mythril/analysis/modules/multiple_sends.py] *)

Module MultipleSends.
Import Report.

(** References to Python list objects.  Two annotations that hold the same
    reference share one list; [append] through either is seen by both. *)
Abbreviation loc := positive.
Abbreviation Heap := (gmap positive (list Z)).

(** The dict returned by [state.get_current_instruction()]. *)
Record Instruction := {
  instr_address : Z;
  opcode : string;
}.

(** [state.environment] and [state.mstate], as far as the detector reads them. *)
Record Account := { contract_name : string }.
Record Disassembly := { code_bytecode : string }.
Record Environment := {
  active_account : Account;
  active_function_name : string;
  code : Disassembly;
}.

Record MultipleSendsAnnotation := { call_offsets : loc }.

Section Detector.
(** Owned by the interpreter and the solver backend: path constraints, one
    transaction of a model, annotations of other kinds, and whatever state
    the solver keeps between queries. *)
Context {Constraints Transaction OtherAnnotation SolverState : Type}.

(** The solver's model: the transactions that reach the state, in order. *)
Definition TransactionSequence := list Transaction.

Record MachineState := {
  constraints : Constraints;
  min_gas_used : Z;
  max_gas_used : Z;
}.

Inductive StateAnnotation :=
| MultipleSends (a : MultipleSendsAnnotation)
| Other (a : OtherAnnotation).

Record GlobalState := {
  current_instruction : Instruction;
  environment : Environment;
  mstate : MachineState;
  annotations : list StateAnnotation;
}.

Definition get_current_instruction (state : GlobalState) : Instruction :=
  current_instruction state.

(** [state.annotate(annotation)] *)
Definition annotate (state : GlobalState) (a : StateAnnotation) : GlobalState :=
  {| current_instruction := current_instruction state;
     environment := environment state;
     mstate := mstate state;
     annotations := annotations state ++ [a] |}.

(** What [get_transaction_sequence] hands back: a model, or [UnsatError]
    raised. *)
Inductive SolverAnswer :=
| Model (transaction_sequence : TransactionSequence)
| UnsatError.

(** Everything the detector can change outside its own fields: the list
    objects and the solver. *)
Record World := {
  heap : Heap;
  solver : SolverState;
}.

(** Computations over the world. *)
Definition M (A : Type) : Type := World → A * World.

#[export] Instance M_ret : MRet M := λ A a w, (a, w).
#[export] Instance M_bind : MBind M :=
  λ A B f m w, let '(a, w') := m w in f a w'.

(** [[]] or [copy(xs)]: a new list object. *)
Definition list_new (xs : list Z) : M loc := λ w,
  let l := fresh (dom (heap w)) in
  (l, {| heap := <[l := xs]> (heap w); solver := solver w |}).

(** The present contents of a list object. *)
Definition list_read (l : loc) : M (list Z) := λ w, (heap w !!! l, w).

(** [l.append(x)].  A reference held by an annotation always denotes a
    list object. *)
Definition list_append (l : loc) (x : Z) : M unit := λ w,
  ((), {| heap := <[l := (heap w !!! l) ++ [x]]> (heap w); solver := solver w |}).

(** [MultipleSendsAnnotation.__init__] *)
Definition MultipleSendsAnnotation__init__ : M MultipleSendsAnnotation :=
  l ← list_new [];
  mret {| call_offsets := l |}.

(** [MultipleSendsAnnotation.__copy__] *)
Definition __copy__ (self : MultipleSendsAnnotation) : M MultipleSendsAnnotation :=
  result ← MultipleSendsAnnotation__init__;
  xs ← list_read (call_offsets self);
  l ← list_new xs;
  mret {| call_offsets := l |}.

(** [state.get_annotations(MultipleSendsAnnotation)], first element. *)
Fixpoint first_multiple_sends (l : list StateAnnotation)
  : option MultipleSendsAnnotation :=
  match l with
  | [] => None
  | MultipleSends a :: _ => Some a
  | Other _ :: l' => first_multiple_sends l'
  end.

(** Modelled from the spec: [get_or_create_annotation] of
    [analysis_module_helpers] is not among the sources.  The detector
    "maintains, per execution state, a call-offset annotation" and a state
    holds "at most one instance of a given kind": the annotation already
    attached is returned, otherwise a new one is made and attached. *)
Definition get_or_create_annotation (state : GlobalState)
  : M (MultipleSendsAnnotation * GlobalState) :=
  match first_multiple_sends (annotations state) with
  | Some a => mret (a, state)
  | None =>
      a ← MultipleSendsAnnotation__init__;
      mret (a, annotate state (MultipleSends a))
  end.

(** The solver bridge, and the classification constant of [swc_data]. *)
Variable get_transaction_sequence :
  GlobalState → Constraints → SolverState → SolverAnswer * SolverState.
Variable MULTIPLE_SENDS : string.

Definition query_solver (state : GlobalState) (cs : Constraints) : M SolverAnswer :=
  λ w,
  let '(r, s') := get_transaction_sequence state cs (solver w) in
  (r, {| heap := heap w; solver := s' |}).

(** The [Issue(...)] built in the loop body. *)
Definition make_issue (state : GlobalState) (offset : Z)
    (transaction_sequence : TransactionSequence) : Issue TransactionSequence :=
  let description_tail :=
    "This call is executed after a previous call in the same transaction. "
    +:+ "Try to isolate each call, transfer or send into its own transaction." in
  {| contract := contract_name (active_account (environment state));
     function_name := active_function_name (environment state);
     address := offset;
     swc_id := MULTIPLE_SENDS;
     bytecode := code_bytecode (code (environment state));
     title := "Multiple Calls in a Single Transaction";
     severity := "Low";
     description_head := "Multiple calls are executed in the same transaction.";
     description_tail := description_tail;
     gas_used := (min_gas_used (mstate state), max_gas_used (mstate state));
     transaction_sequence := transaction_sequence |}.

(** [for offset in call_offsets[1:]: ...], followed by [return []]. *)
Fixpoint scan_offsets (state : GlobalState) (offsets : list Z)
  : M (list (Issue TransactionSequence)) :=
  match offsets with
  | [] => mret []
  | offset :: rest =>
      r ← query_solver state (constraints (mstate state));
      match r with
      | UnsatError => scan_offsets state rest
      | Model transaction_sequence =>
          mret [make_issue state offset transaction_sequence]
      end
  end.

Definition call_opcodes : list string :=
  ["CALL"; "DELEGATECALL"; "STATICCALL"; "CALLCODE"].

(** [_analyze_state]: the issues, and the state (which may have gained the
    annotation). *)
Definition _analyze_state (state : GlobalState)
  : M (list (Issue TransactionSequence) * GlobalState) :=
  let instruction := get_current_instruction state in
  '(annotation, state) ← get_or_create_annotation state;
  let call_offsets := call_offsets annotation in
  if bool_decide (opcode instruction ∈ call_opcodes) then
    list_append call_offsets (instr_address (get_current_instruction state));;
    mret ([], state)
  else
    offsets ← list_read call_offsets;
    issues ← scan_offsets state (drop 1 offsets);
    mret (issues, state).

(** The fields of [DetectionModule] that [_execute] uses. *)
Record MultipleSendsModule := {
  _cache : gset Z;
  _issues : list (Issue TransactionSequence);
}.

(** The detector as constructed: nothing cached, nothing found. *)
Definition detector : MultipleSendsModule :=
  {| _cache := ∅; _issues := [] |}.

Definition pre_hooks : list string :=
  ["CALL"; "DELEGATECALL"; "STATICCALL"; "CALLCODE"; "RETURN"; "STOP"].

Definition _execute (self : MultipleSendsModule) (state : GlobalState)
  : M (MultipleSendsModule * GlobalState) :=
  if bool_decide (instr_address (get_current_instruction state) ∈ _cache self) then
    mret (self, state)
  else
    '(issues, state) ← _analyze_state state;
    let cache := foldl (λ c issue, c ∪ {[address issue]}) (_cache self) issues in
    mret ({| _cache := cache; _issues := _issues self ++ issues |}, state).

(** *** Observations used to state the properties *)

Definition terminating_opcodes : list string := ["RETURN"; "STOP"].

(** The call offsets recorded on a state: the contents of the list held by
    its annotation, nothing when it has none yet. *)
Definition recorded_call_offsets (state : GlobalState) (h : Heap) : list Z :=
  match first_multiple_sends (annotations state) with
  | Some a => h !!! call_offsets a
  | None => []
  end.

(** The solver after [n] queries on the constraints of [state]. *)
Fixpoint solver_after (state : GlobalState) (n : nat) (s : SolverState)
  : SolverState :=
  match n with
  | O => s
  | S n' =>
      solver_after state n'
        (get_transaction_sequence state (constraints (mstate state)) s).2
  end.

(** The answer to query number [n] (from 0) of such a series. *)
Definition nth_answer (state : GlobalState) (n : nat) (s : SolverState)
  : SolverAnswer :=
  (get_transaction_sequence state (constraints (mstate state))
     (solver_after state n s)).1.

End Detector.

Arguments MachineState : clear implicits.
Arguments StateAnnotation : clear implicits.
Arguments GlobalState : clear implicits.
Arguments SolverAnswer : clear implicits.
Arguments World : clear implicits.
Arguments MultipleSendsModule : clear implicits.

End MultipleSends.

(** ** Concrete runs used to exercise the definitions *)

Module Scenario.
Import Py Report.

(** *** Loader: the executor is the list of hooks installed so far. *)

Definition hooking (name : string) : Loader.LaserPlugin (list string) :=
  {| Loader.initialize := λ vm, vm ++ [name] |}.

Definition builder (name : string) (flag : bool) (hook : string)
  : Loader.PluginBuilder (list string) :=
  {| Loader.plugin_name := name;
     Loader.enabled := flag;
     Loader.__call__ := λ _, hooking hook |}.

Definition coverage := builder "coverage" true "coverage-v1".
Definition coverage_again := builder "coverage" false "coverage-v2".
Definition pruner := builder "mutation-pruner" false "pruner-v1".

(** [load(coverage); load(pruner)] on a new loader. *)
Definition two_plugins : Loader.LaserPluginLoader (list string) :=
  (Loader.load (Loader.load Loader.__init__ coverage).1 pruner).1.

(** *** Detector: constraints and transactions are names, the solver
    counts its queries. *)

Import MultipleSends.

Abbreviation State := (GlobalState (list string) unit).

Definition wallet : Environment :=
  {| active_account := {| contract_name := "Wallet" |};
     active_function_name := "withdraw()";
     code := {| code_bytecode := "6080" |} |}.

Definition at_instruction (a : Z) (op : string)
    (anns : list (StateAnnotation unit)) : State :=
  {| current_instruction := {| instr_address := a; opcode := op |};
     environment := wallet;
     mstate := {| constraints := ["callvalue == 0"];
                  min_gas_used := 21000; max_gas_used := 42000 |};
     annotations := anns |}.

(** The interpreter moves on: same annotations, next instruction. *)
Definition next_instruction (a : Z) (op : string) (s : State) : State :=
  at_instruction a op (annotations s).

(** A solver that always finds a model. *)
Definition always_sat (s : State) (cs : list string) (n : nat)
  : SolverAnswer string * nat := (Model ["withdraw()"], S n).

(** A solver whose first query fails and whose later queries succeed. *)
Definition sat_after_first (s : State) (cs : list string) (n : nat)
  : SolverAnswer string * nat :=
  match n with
  | O => (UnsatError, S n)
  | _ => (Model ["withdraw()"], S n)
  end.

(** A solver that finds the constraints satisfiable and returns a model
    without transactions. *)
Definition empty_model (s : State) (cs : list string) (n : nat)
  : SolverAnswer string * nat := (Model [], S n).

(** A solver that never finds one. *)
Definition never_sat (s : State) (cs : list string) (n : nat)
  : SolverAnswer string * nat := (UnsatError, S n).

Definition SWC : string := "113".

Definition no_lists : World nat := {| heap := ∅; solver := 0%nat |}.

(** One list object, at reference 1. *)
Definition one_list (xs : list Z) : World nat :=
  {| heap := {[ 1%positive := xs ]}; solver := 0%nat |}.

Definition tracker : MultipleSendsAnnotation := {| call_offsets := 1%positive |}.

(** CALL at 10, CALL at 20, then the state forks (the child's annotation
    is the parent's [__copy__]) and both branches reach the STOP at 30. *)
Definition forked_run
  : M (MultipleSendsModule string) :=
  let hook := _execute always_sat SWC in
  '(d, s) ← hook detector (at_instruction 10 "CALL" []);
  '(d, s) ← hook d (next_instruction 20 "CALL" s);
  match first_multiple_sends (annotations s) with
  | Some a =>
      a' ← __copy__ a;
      '(d, _) ← hook d (next_instruction 30 "STOP" s);
      '(d, _) ← hook d (at_instruction 30 "STOP" [MultipleSends a']);
      mret d
  | None => mret d
  end.

End Scenario.

(** ** Sequences of calls, as the callers of these functions make them *)

Module Runs.
Import Py Report.

Section LoaderRuns.
Context {LaserEVM : Type}.

(** [for builder in builders: loader.load(builder)] *)
Definition load_all (self : Loader.LaserPluginLoader LaserEVM)
    (builders : list (Loader.PluginBuilder LaserEVM))
  : Loader.LaserPluginLoader LaserEVM :=
  foldl (λ loader builder, (Loader.load loader builder).1) self builders.

(** The loaders a program can hold: a new one, changed by [load] and
    [enable] calls only. *)
Inductive reachable : Loader.LaserPluginLoader LaserEVM → Prop :=
| reachable_init : reachable Loader.__init__
| reachable_load self builder :
    reachable self → reachable (Loader.load self builder).1
| reachable_enable self name :
    reachable self → reachable (Loader.enable self name).2.

(** The entries of the registry that an instrumentation run picks. *)
Definition selected (self : Loader.LaserPluginLoader LaserEVM)
    (with_plugins : option (list string))
  : list (string * Loader.PluginBuilder LaserEVM) :=
  List.filter (λ entry, Loader.effective_enabled with_plugins entry.1 entry.2)
    (items (Loader.laser_plugin_builders self)).

(** What the loop body leaves in the trace for one plugin. *)
Definition plugin_events (name : string) : list Loader.Event :=
  [Loader.Logged (Info ("Instrumenting symbolic vm with plugin: " +:+ name));
   Loader.Instantiated name;
   Loader.Initialized name].

(** The first builder of a list that declares the given name. *)
Definition first_named (name : string)
    (builders : list (Loader.PluginBuilder LaserEVM))
  : option (Loader.PluginBuilder LaserEVM) :=
  head (List.filter (λ builder, bool_decide (Loader.plugin_name builder = name))
          builders).

End LoaderRuns.

Import MultipleSends.

Section DetectorRuns.
Context {Constraints Transaction OtherAnnotation SolverState : Type}.
Variable get_transaction_sequence :
  GlobalState Constraints OtherAnnotation → Constraints → SolverState
  → SolverAnswer Transaction * SolverState.
Variable MULTIPLE_SENDS : string.

(** The interpreter reaches another instruction; what is attached to the
    state stays attached. *)
Definition with_instruction (state : GlobalState Constraints OtherAnnotation)
    (instruction : Instruction) : GlobalState Constraints OtherAnnotation :=
  {| current_instruction := instruction;
     environment := environment state;
     mstate := mstate state;
     annotations := annotations state |}.

(** The same state hooked at one instruction after the other; the issues
    of all the hooks, in order. *)
Fixpoint analyze_all (state : GlobalState Constraints OtherAnnotation)
    (instructions : list Instruction)
  : M (SolverState:=SolverState)
      (list (Issue (TransactionSequence (Transaction:=Transaction)))
       * GlobalState Constraints OtherAnnotation) :=
  match instructions with
  | [] => mret ([], state)
  | instruction :: rest =>
      '(issues, state) ←
        _analyze_state get_transaction_sequence MULTIPLE_SENDS
          (with_instruction state instruction);
      '(more, state) ← analyze_all state rest;
      mret (issues ++ more, state)
  end.

End DetectorRuns.

End Runs.

(** * Properties *)

(** ** Dictionaries *)

Module DictFacts.
Import Py.

Section DictFacts.
Context {V : Type}.
Implicit Types (d : dict V) (k : string) (v : V).

Lemma contains_keys d k : contains d k = true ↔ k ∈ d.*1.
Proof.
  induction d as [|[k' v'] d IH]; simpl.
  - split; [done | by intros ?%elem_of_nil].
  - rewrite elem_of_cons. destruct (decide (k' = k)) as [->|Hne].
    + split; auto.
    + rewrite IH. split; [auto | intros [?|?]; [congruence | done]].
Qed.

Lemma contains_false_get d k : contains d k = false → get d k = None.
Proof.
  induction d as [|[k' v'] d IH]; simpl; [done|].
  destruct (decide (k' = k)); [done | exact IH].
Qed.

Lemma contains_true_get d k : contains d k = true → is_Some (get d k).
Proof.
  induction d as [|[k' v'] d IH]; simpl; [done|].
  destruct (decide (k' = k)); [eauto | exact IH].
Qed.

Lemma get_set_eq d k v : get (set d k v) k = Some v.
Proof.
  induction d as [|[k' v'] d IH]; simpl.
  - by rewrite decide_True.
  - destruct (decide (k' = k)) as [->|Hne]; simpl.
    + by rewrite decide_True.
    + by rewrite decide_False.
Qed.

Lemma contains_set_eq d k v : contains (set d k v) k = true.
Proof.
  induction d as [|[k' v'] d IH]; simpl.
  - by rewrite decide_True.
  - destruct (decide (k' = k)) as [->|Hne]; simpl.
    + by rewrite decide_True.
    + by rewrite decide_False.
Qed.

Lemma set_new d k v : contains d k = false → set d k v = d ++ [(k, v)].
Proof.
  induction d as [|[k' v'] d IH]; simpl; [done|].
  destruct (decide (k' = k)); [done|]. intros H. by rewrite IH.
Qed.

Lemma keys_set d k v :
  (set d k v).*1 = if contains d k then d.*1 else d.*1 ++ [k].
Proof.
  induction d as [|[k' v'] d IH]; [done|]. cbn [set contains].
  destruct (decide (k' = k)) as [->|Hne]; [done|].
  rewrite !fmap_cons, IH. by destruct (contains d k).
Qed.

Lemma wf_nil : wf (V:=V) [].
Proof. apply NoDup_nil_2. Qed.

Lemma wf_set d k v : wf d → wf (set d k v).
Proof.
  unfold wf. intros Hd. rewrite keys_set.
  destruct (contains d k) eqn:Hc; [done|].
  apply NoDup_app. split_and!; [done | | apply NoDup_singleton].
  intros x Hx ->%list_elem_of_singleton.
  apply contains_keys in Hx. congruence.
Qed.

(** In a well-formed dictionary an entry is what [get] finds. *)
Lemma wf_entry_get d k v : wf d → (k, v) ∈ items d → get d k = Some v.
Proof.
  unfold wf, items. induction d as [|[k' v'] d IH]; simpl.
  - by intros _ ?%elem_of_nil.
  - intros [Hk Hd]%NoDup_cons [Heq|Hin]%elem_of_cons.
    + injection Heq as -> ->. by rewrite decide_True.
    + destruct (decide (k' = k)) as [->|Hne]; [|auto].
      exfalso. apply Hk. apply list_elem_of_fmap. by exists (k, v).
Qed.

End DictFacts.
End DictFacts.

(** ** The plugin loader *)

Module LoaderSpec.
Import Py Loader DictFacts.

Section LoaderSpec.
Context {LaserEVM : Type}.
Implicit Types (self : LaserPluginLoader LaserEVM) (b : PluginBuilder LaserEVM).
Implicit Types (name : string) (vm : LaserEVM).

(** After [load], the builder's name is registered. *)
Lemma load_registers self b :
  contains (laser_plugin_builders (load self b).1) (plugin_name b) = true.
Proof.
  unfold load.
  destruct (contains (laser_plugin_builders self) (plugin_name b)) eqn:Hc;
    simpl; [done|].
  apply contains_set_eq.
Qed.

(** A name that was free is bound to the builder just loaded. *)
Lemma load_new self b :
  contains (laser_plugin_builders self) (plugin_name b) = false →
  get (laser_plugin_builders (load self b).1) (plugin_name b) = Some b.
Proof. intros Hc. unfold load. rewrite Hc. simpl. apply get_set_eq. Qed.

(** [load] and [enable] keep the registry free of repeated keys. *)
Lemma load_wf self b :
  wf (laser_plugin_builders self) → wf (laser_plugin_builders (load self b).1).
Proof.
  intros Hwf. unfold load.
  destruct (contains (laser_plugin_builders self) (plugin_name b));
    simpl; [done|].
  by apply wf_set.
Qed.

Lemma enable_wf self name :
  wf (laser_plugin_builders self) → wf (laser_plugin_builders (enable self name).2).
Proof.
  intros Hwf. unfold enable.
  destruct (contains (laser_plugin_builders self) name); simpl; [|done].
  destruct (get (laser_plugin_builders self) name); simpl;
    [by apply wf_set | done].
Qed.

(** The trace of the instrumentation loop names exactly the entries whose
    effective flag is set. *)
Lemma instrument_loop_initialized entries vm with_plugins name :
  Initialized name ∈ (instrument_loop entries vm with_plugins).2
  ↔ ∃ b, (name, b) ∈ entries ∧ effective_enabled with_plugins name b = true.
Proof.
  revert vm. induction entries as [|[n b] rest IH]; intros vm; simpl.
  - split; [by intros ?%elem_of_nil | by intros (? & ?%elem_of_nil & _)].
  - destruct (effective_enabled with_plugins n b) eqn:He; simpl.
    + destruct (instrument_loop rest _ with_plugins) as [vm' evs] eqn:Hl.
      specialize (IH (initialize (__call__ b ()) vm)). rewrite Hl in IH.
      simpl in *. rewrite !elem_of_cons, IH. split.
      * intros [?|[?|[[= ->]|(b' & Hin & Hb')]]]; try done.
        -- exists b. split; [left | done].
        -- exists b'. split; [by right | done].
      * intros (b' & [[= -> ->]|Hin]%elem_of_cons & Hb'); [auto|].
        right; right; right. by exists b'.
    + rewrite IH. split.
      * intros (b' & Hin & Hb'). exists b'. split; [by right | done].
      * intros (b' & [[= -> ->]|Hin]%elem_of_cons & Hb'); [congruence|].
        by exists b'.
Qed.

Lemma instrument_loop_instantiated entries vm with_plugins name :
  Instantiated name ∈ (instrument_loop entries vm with_plugins).2
  ↔ Initialized name ∈ (instrument_loop entries vm with_plugins).2.
Proof.
  revert vm. induction entries as [|[n b] rest IH]; intros vm; simpl;
    [by split; intros ?%elem_of_nil|].
  destruct (effective_enabled with_plugins n b); simpl; [|apply IH].
  destruct (instrument_loop rest _ with_plugins) as [vm' evs] eqn:Hl.
  specialize (IH (initialize (__call__ b ()) vm)). rewrite Hl in IH.
  simpl in *. rewrite !elem_of_cons, IH. split.
  - intros [?|[[= ->]|[?|?]]]; try done; auto.
  - intros [?|[?|[[= ->]|?]]]; try done; auto.
Qed.

(** C2 (what the code does): for a name that is not registered, [enable]
    leaves the registry as it was, but the call does not fail: the
    [ValueError] instance comes back as an ordinary return value, and no
    exception reaches the caller. *)
Theorem enable_unknown_returns_error_object self name :
  contains (laser_plugin_builders self) name = false →
  (enable self name).1
  = Returned (VException
      (ValueError ("Plugin with name: " +:+ name +:+ " was not loaded")))
  ∧ (∀ e, (enable self name).1 ≠ Raised e)
  ∧ (enable self name).2 = self.
Proof.
  intros Hc. unfold enable. rewrite Hc. simpl. split_and!; done.
Qed.

(** The empty override list is read as no override list: the loop tests
    [not with_plugins], which holds for [[]] as it does for [None]. *)
Lemma instrument_loop_empty_override
    (entries : list (string * PluginBuilder LaserEVM)) vm :
  instrument_loop entries vm (Some []) = instrument_loop entries vm None.
Proof.
  revert vm. induction entries as [|[n b] rest IH]; intros vm; [done|].
  cbn [instrument_loop]. unfold effective_enabled. cbn [truthy negb].
  destruct (enabled b); cbn [negb]; [|apply IH].
  by rewrite IH.
Qed.

(** What the loop does for a registered plugin: the builder is called and
    the plugin initialised against the executor if and only if its name is in
    the override list, when that list is supplied and not empty; without an
    override list, or with the empty one, if and only if its stored
    [enabled] flag is true. *)
Theorem instrument_override_or_flag self vm with_plugins name b :
  wf (laser_plugin_builders self) →
  (name, b) ∈ items (laser_plugin_builders self) →
  let trace := (instrument_virtual_machine self vm with_plugins).2 in
  (Instantiated name ∈ trace ↔ Initialized name ∈ trace)
  ∧ match with_plugins with
    | Some (n :: override) => Initialized name ∈ trace ↔ name ∈ n :: override
    | Some [] | None => Initialized name ∈ trace ↔ enabled b = true
    end.
Proof.
  intros Hwf Hin trace. subst trace. unfold instrument_virtual_machine.
  split; [apply instrument_loop_instantiated|].
  assert (∀ b', (name, b') ∈ items (laser_plugin_builders self) → b' = b) as Huniq.
  { intros b' Hin'. apply (wf_entry_get _ _ _ Hwf) in Hin, Hin'. congruence. }
  assert (Initialized name ∈
            (instrument_loop (items (laser_plugin_builders self)) vm with_plugins).2
          ↔ effective_enabled with_plugins name b = true) as Hiff.
  { rewrite instrument_loop_initialized. split.
    - intros (b' & Hin' & He). by rewrite <-(Huniq b' Hin').
    - intros He. by exists b. }
  unfold effective_enabled in Hiff.
  destruct with_plugins as [[|n override]|]; simpl in Hiff; [done| |done].
  by rewrite bool_decide_eq_true in Hiff.
Qed.

(** C6: a second [load] under a name that the first one used changes
    nothing: same registry, same size, and it logs the warning and returns.
    When the first call registered the name, the name still maps to the
    first builder. *)
Theorem load_twice_keeps_first self b1 b2 :
  plugin_name b2 = plugin_name b1 →
  let first := load self b1 in
  let second := load first.1 b2 in
  second.1 = first.1
  ∧ len (laser_plugin_builders second.1) = len (laser_plugin_builders first.1)
  ∧ get (laser_plugin_builders second.1) (plugin_name b1)
    = get (laser_plugin_builders first.1) (plugin_name b1)
  ∧ (contains (laser_plugin_builders self) (plugin_name b1) = false →
     get (laser_plugin_builders second.1) (plugin_name b1) = Some b1)
  ∧ second.2
    = [Info ("Loading laser plugin: " +:+ plugin_name b2);
       Warning ("Laser plugin with name " +:+ plugin_name b2
                +:+ " was already loaded, skipping...")].
Proof.
  intros Hname first second.
  assert (second = (first.1,
            [Info ("Loading laser plugin: " +:+ plugin_name b2);
             Warning ("Laser plugin with name " +:+ plugin_name b2
                      +:+ " was already loaded, skipping...")])) as ->.
  { subst second. unfold load at 1. subst first.
    by rewrite Hname, load_registers. }
  simpl. split_and!; try done.
  intros Hfree. subst first. by apply load_new.
Qed.

End LoaderSpec.

(** C3 (what the code does): an explicit, empty override list does not
    disable the plugins that are not listed.  For every loader it gives the
    executor and the trace of a run without override list; with [coverage]
    registered and enabled and [with_plugins = []], [coverage] is built and
    initialised against the executor although it is not in the list. *)
Theorem empty_override_is_ignored :
  (∀ (LaserEVM : Type) (self : LaserPluginLoader LaserEVM) (vm : LaserEVM),
     instrument_virtual_machine self vm (Some [])
     = instrument_virtual_machine self vm None)
  ∧ get (laser_plugin_builders Scenario.two_plugins) "coverage"
    = Some Scenario.coverage
  ∧ ("coverage" ∉ @nil string)
  ∧ instrument_virtual_machine Scenario.two_plugins [] (Some [])
    = (["coverage-v1"],
       [Logged (Info "Instrumenting symbolic vm with plugin: coverage");
        Instantiated "coverage";
        Initialized "coverage"]).
Proof.
  split_and!.
  - intros LaserEVM self vm. unfold instrument_virtual_machine.
    apply instrument_loop_empty_override.
  - reflexivity.
  - apply not_elem_of_nil.
  - reflexivity.
Qed.

(** C2 for a name that was not loaded. *)
Lemma enable_unknown_returns_error_object_witness :
  contains (laser_plugin_builders Scenario.two_plugins) "call-depth-limit" = false
  ∧ (enable Scenario.two_plugins "call-depth-limit").1
    = Returned (VException
        (ValueError "Plugin with name: call-depth-limit was not loaded"))
  ∧ (enable Scenario.two_plugins "call-depth-limit").2 = Scenario.two_plugins.
Proof.
  pose proof (enable_unknown_returns_error_object
                Scenario.two_plugins "call-depth-limit" eq_refl) as (H1 & _ & H2).
  split_and!; [reflexivity | exact H1 | exact H2].
Defined.

(** An override list that names the disabled plugin. *)
Lemma instrument_override_or_flag_witness :
  let trace :=
    (instrument_virtual_machine Scenario.two_plugins []
       (Some ["mutation-pruner"])).2 in
  Initialized "mutation-pruner" ∈ trace
  ↔ "mutation-pruner" ∈ ["mutation-pruner"].
Proof.
  refine (proj2 (instrument_override_or_flag Scenario.two_plugins []
            (Some ["mutation-pruner"]) "mutation-pruner" Scenario.pruner _ _)).
  - unfold wf. apply (bool_decide_unpack _). vm_compute. exact I.
  - vm_compute. right. left.
Defined.

(** C6 with two builders named [coverage]. *)
Lemma load_twice_keeps_first_witness :

  let first := load (load __init__ Scenario.pruner).1 Scenario.coverage in
  let second := load first.1 Scenario.coverage_again in
  second.1 = first.1
  ∧ get (laser_plugin_builders second.1) "coverage" = Some Scenario.coverage.
Proof.
  pose proof (load_twice_keeps_first (load __init__ Scenario.pruner).1
                Scenario.coverage Scenario.coverage_again eq_refl)
    as (H1 & _ & _ & H2 & _).
  split; [exact H1 | exact (H2 eq_refl)].
Defined.

End LoaderSpec.

(** ** The issue-propagation annotation *)

Module AnnotationSpec.
Import IssueAnnotation.

(** C9: whatever conditions, issue and detector an [IssueAnnotation] was
    constructed with, [persist_to_world_state] returns [True] and
    [persist_over_calls] is [True]. *)
Theorem issue_annotation_always_persists
    {SmtBool Issue Detector : Type}
    (conditions : list SmtBool) (issue : Issue) (detector : Detector) :
  let annotation := __init__ conditions issue detector in
  persist_to_world_state annotation = true
  ∧ persist_over_calls annotation = true.
Proof. split; reflexivity. Qed.

End AnnotationSpec.

(** ** The multiple-sends detector *)

Module DetectorSpec.
Import Report MultipleSends.

Section DetectorSpec.
Context {Constraints Transaction OtherAnnotation SolverState : Type}.
Variable get_transaction_sequence :
  GlobalState Constraints OtherAnnotation → Constraints → SolverState
  → SolverAnswer Transaction * SolverState.
Variable MULTIPLE_SENDS : string.

Local Abbreviation State := (GlobalState Constraints OtherAnnotation).
Local Abbreviation analyze :=
  (_analyze_state get_transaction_sequence MULTIPLE_SENDS).
Local Abbreviation scan :=
  (scan_offsets get_transaction_sequence MULTIPLE_SENDS).
Local Abbreviation answer := (nth_answer get_transaction_sequence).
Local Abbreviation after := (solver_after get_transaction_sequence).

Implicit Types (state : State) (w : World SolverState).
Implicit Types (a : MultipleSendsAnnotation) (l : loc) (x : Z).

(** *** The heap *)

Lemma list_new_fresh (xs : list Z) w :
  heap w !! (list_new xs w).1 = None.
Proof. simpl. apply not_elem_of_dom, is_fresh. Qed.

Lemma list_append_same l x w :
  heap (list_append l x w).2 !!! l = heap w !!! l ++ [x].
Proof. simpl. apply lookup_total_insert_eq. Qed.

Lemma list_append_other l l' x w :
  l ≠ l' → heap (list_append l x w).2 !! l' = heap w !! l'.
Proof. intros Hne. simpl. by apply lookup_insert_ne. Qed.

(** [__copy__] step by step: two allocations, the second one holding the
    contents read from the original. *)
Lemma copy_unfold a w :
  let l1 := fresh (dom (heap w)) in
  let h1 := <[l1 := []]> (heap w) in
  let l2 := fresh (dom h1) in
  __copy__ a w
  = ({| call_offsets := l2 |},
     {| heap := <[l2 := h1 !!! call_offsets a]> h1; solver := solver w |}).
Proof. reflexivity. Qed.

(** *** The annotation attached to a state *)

Lemma first_multiple_sends_app (anns : list (StateAnnotation OtherAnnotation)) a :
  first_multiple_sends anns = None →
  first_multiple_sends (anns ++ [MultipleSends a]) = Some a.
Proof.
  induction anns as [|[a'|o] anns IH]; simpl; [done | done | exact IH].
Qed.

Lemma get_or_create_found state a w :
  first_multiple_sends (annotations state) = Some a →
  get_or_create_annotation state w = ((a, state), w).
Proof. intros H. unfold get_or_create_annotation. by rewrite H. Qed.

Lemma get_or_create_made state w :
  first_multiple_sends (annotations state) = None →
  let l := fresh (dom (heap w)) in
  get_or_create_annotation state w
  = (({| call_offsets := l |}, annotate state (MultipleSends {| call_offsets := l |})),
     {| heap := <[l := []]> (heap w); solver := solver w |}).
Proof. intros H. unfold get_or_create_annotation. by rewrite H. Qed.

(** *** [_analyze_state], by cases on the annotation *)

Lemma analyze_found state a w :
  first_multiple_sends (annotations state) = Some a →
  analyze state w
  = if bool_decide (opcode (get_current_instruction state) ∈ call_opcodes) then
      (([], state),
       (list_append (call_offsets a)
          (instr_address (get_current_instruction state)) w).2)
    else
      (((scan state (drop 1 (heap w !!! call_offsets a)) w).1, state),
       (scan state (drop 1 (heap w !!! call_offsets a)) w).2).
Proof.
  intros Hf. unfold _analyze_state, mbind, M_bind.
  rewrite (get_or_create_found _ _ _ Hf).
  case_bool_decide; [done|]. simpl.
  by destruct (scan_offsets _ _ _ _ _).
Qed.

Lemma analyze_made state w :
  first_multiple_sends (annotations state) = None →
  let l := fresh (dom (heap w)) in
  let state' := annotate state (MultipleSends {| call_offsets := l |}) in
  analyze state w
  = if bool_decide (opcode (get_current_instruction state) ∈ call_opcodes) then
      (([], state'),
       {| heap := <[l := [instr_address (get_current_instruction state)]]>
                    (<[l := []]> (heap w));
          solver := solver w |})
    else
      (([], state'), {| heap := <[l := []]> (heap w); solver := solver w |}).
Proof.
  intros Hf l state'. unfold _analyze_state, mbind, M_bind.
  rewrite (get_or_create_made _ _ Hf). fold l. fold state'.
  case_bool_decide; simpl.
  - by rewrite lookup_total_insert_eq.
  - by rewrite lookup_total_insert_eq.
Qed.

Lemma terminating_not_call (op : string) :
  op ∈ terminating_opcodes → bool_decide (op ∈ call_opcodes) = false.
Proof.
  unfold terminating_opcodes. rewrite !elem_of_cons.
  intros [->|[->|H]]; [reflexivity | reflexivity | by apply elem_of_nil in H].
Qed.

(** *** The scan over the later offsets *)

Lemma scan_heap state (offsets : list Z) w :
  heap (scan state offsets w).2 = heap w.
Proof.
  revert w. induction offsets as [|offset rest IH]; intros w; [done|].
  cbn [scan_offsets]. unfold mbind, M_bind, query_solver.
  destruct (get_transaction_sequence _ _ _) as [[ts|] s']; [done|].
  by rewrite IH.
Qed.

(** The scan ends at the first query that the solver answers with a model,
    with the issue for the offset it had reached; it comes back empty only
    when every query was answered by [UnsatError]. *)
Lemma scan_first_model state (offsets : list Z) w :
  match (scan state offsets w).1 with
  | [] =>
      (∀ k, (k < length offsets)%nat → answer state k (solver w) = UnsatError)
      ∧ solver (scan state offsets w).2 = after state (length offsets) (solver w)
  | [issue] =>
      ∃ (k : nat) offset ts,
        offsets !! k = Some offset
        ∧ (∀ j, (j < k)%nat → answer state j (solver w) = UnsatError)
        ∧ answer state k (solver w) = Model ts
        ∧ issue = make_issue MULTIPLE_SENDS state offset ts
        ∧ solver (scan state offsets w).2 = after state (S k) (solver w)
  | _ :: _ :: _ => False
  end.
Proof.
  revert w. induction offsets as [|offset rest IH]; intros w.
  - simpl. split; [intros k Hk; lia | done].
  - cbn [scan_offsets]. unfold mbind, M_bind, query_solver.
    destruct (get_transaction_sequence state (constraints (mstate state)) (solver w))
      as [[ts|] s'] eqn:Hq.
    + simpl. exists 0%nat, offset, ts. split_and!; try done.
      * intros j Hj; lia.
      * unfold nth_answer. simpl. by rewrite Hq.
      * by rewrite Hq.
    + specialize (IH {| heap := heap w; solver := s' |}). simpl in IH.
      assert (∀ k, answer state (S k) (solver w) = answer state k s') as Hshift.
      { intros k. unfold nth_answer. simpl. by rewrite Hq. }
      assert (∀ k, after state (S k) (solver w) = after state k s') as Hafter.
      { intros k. simpl. by rewrite Hq. }
      destruct (scan state rest {| heap := heap w; solver := s' |}).1
        as [|issue [|issue' more]] eqn:Hr.
      * destruct IH as [Hall Hs]. split.
        -- intros [|k] Hk.
           ++ unfold nth_answer. simpl. by rewrite Hq.
           ++ rewrite Hshift. apply Hall. simpl in Hk. lia.
        -- simpl length. by rewrite Hafter.
      * destruct IH as (k & o & ts & Hk & Hbefore & Hat & Hi & Hs).
        exists (S k), o, ts. split_and!; try done.
        -- intros [|j] Hj.
           ++ unfold nth_answer. simpl. by rewrite Hq.
           ++ rewrite Hshift. apply Hbefore. lia.
        -- by rewrite Hshift.
        -- by rewrite Hafter.
      * done.
Qed.

(** *** The claims *)

(** C8: [__copy__] of a live annotation gives an annotation with a list of
    its own: the new list has the contents the original had at the time of
    the copy, the original is untouched, and an [append] through either of
    the two changes that list only. *)
Theorem copy_is_independent a w :
  is_Some (heap w !! call_offsets a) →
  let r := (__copy__ a w).1 in
  let w' := (__copy__ a w).2 in
  heap w' !! call_offsets r = heap w !! call_offsets a
  ∧ heap w' !! call_offsets a = heap w !! call_offsets a
  ∧ call_offsets r ≠ call_offsets a
  ∧ (∀ x,
       heap (list_append (call_offsets r) x w').2 !! call_offsets a
       = heap w' !! call_offsets a
       ∧ heap (list_append (call_offsets r) x w').2 !!! call_offsets r
         = heap w' !!! call_offsets r ++ [x])
  ∧ (∀ x,
       heap (list_append (call_offsets a) x w').2 !! call_offsets r
       = heap w' !! call_offsets r
       ∧ heap (list_append (call_offsets a) x w').2 !!! call_offsets a
         = heap w' !!! call_offsets a ++ [x]).
Proof.
  intros Hlive r w'. subst r w'. rewrite copy_unfold. cbn [fst snd heap call_offsets].
  set (l1 := fresh (dom (heap w))).
  set (h1 := <[l1 := []]> (heap w)).
  set (l2 := fresh (dom h1)).
  assert (l1 ≠ call_offsets a) as Hl1.
  { intros Heq. pose proof (is_fresh (dom (heap w))) as Hfresh.
    apply Hfresh. fold l1. rewrite Heq. by apply elem_of_dom. }
  assert (h1 !! call_offsets a = heap w !! call_offsets a) as Hh1.
  { subst h1. by rewrite lookup_insert_ne. }
  assert (l2 ≠ call_offsets a) as Hl2.
  { intros Heq. pose proof (is_fresh (dom h1)) as Hfresh.
    apply Hfresh. fold l2. rewrite Heq. apply elem_of_dom. by rewrite Hh1. }
  split_and!.
  - rewrite lookup_insert_eq. destruct Hlive as [xs Hxs].
    rewrite Hxs. f_equal. apply lookup_total_correct. by rewrite Hh1.
  - by rewrite lookup_insert_ne.
  - done.
  - intros x. split; [by apply list_append_other | apply list_append_same].
  - intros x. split; [by apply list_append_other | apply list_append_same].
Qed.

(** The opcode test of [_analyze_state], spelt out. *)
Lemma call_opcodes_spec (op : string) :
  op ∈ call_opcodes
  ↔ op = "CALL" ∨ op = "DELEGATECALL" ∨ op = "STATICCALL" ∨ op = "CALLCODE".
Proof.
  unfold call_opcodes. rewrite !elem_of_cons, elem_of_nil. tauto.
Qed.

(** What [_analyze_state] does to the lists, by the outcome of its opcode
    test: on the branch of the test one address is appended to the state's
    call offsets and no other list is touched, on the other branch the
    recorded offsets and every existing list stay as they were. *)
Lemma analyze_by_opcode_test state w :
  let r := analyze state w in
  let before := recorded_call_offsets state (heap w) in
  let now := recorded_call_offsets r.1.2 (heap r.2) in
  let pc := instr_address (get_current_instruction state) in
  (∀ l, is_Some (heap w !! l) →
        first_multiple_sends (annotations state) ≠ Some {| call_offsets := l |} →
        heap r.2 !! l = heap w !! l)
  ∧ (∀ a, first_multiple_sends (annotations state) = Some a → r.1.2 = state)
  ∧ if bool_decide (opcode (get_current_instruction state) ∈ call_opcodes) then
      now = before ++ [pc]
      ∧ (∀ a, first_multiple_sends (annotations state) = Some a →
              heap r.2 = <[call_offsets a := before ++ [pc]]> (heap w))
    else
      now = before
      ∧ (∀ l, is_Some (heap w !! l) → heap r.2 !! l = heap w !! l)
      ∧ (∀ a, first_multiple_sends (annotations state) = Some a →
              heap r.2 = heap w).
Proof.
  intros r before now pc. subst r before now pc. unfold recorded_call_offsets.
  destruct (first_multiple_sends (annotations state)) as [a|] eqn:Hf.
  - rewrite (analyze_found _ _ _ Hf).
    destruct (bool_decide (opcode (get_current_instruction state) ∈ call_opcodes)).
    + cbn [fst snd]. rewrite Hf. split_and!.
      * intros l _ Hne. apply list_append_other. intros <-. by destruct a.
      * done.
      * apply list_append_same.
      * by intros ? [= <-].
    + cbn [fst snd]. rewrite Hf, scan_heap. split_and!; try done.
  - rewrite (analyze_made _ _ Hf).
    pose proof (is_fresh (dom (heap w))) as Hfresh.
    set (l := fresh (dom (heap w))) in *.
    assert (∀ l', is_Some (heap w !! l') → l ≠ l') as Hne.
    { intros l' Hl' ->. by apply Hfresh, elem_of_dom. }
    destruct (bool_decide (opcode (get_current_instruction state) ∈ call_opcodes));
      cbn [fst snd heap annotations annotate];
      rewrite (first_multiple_sends_app _ _ Hf); cbn [call_offsets].
    + split_and!; try done.
      * intros l' Hl' _. rewrite !lookup_insert_ne; auto.
      * by rewrite lookup_total_insert_eq.
    + split_and!; try done.
      * intros l' Hl' _. rewrite lookup_insert_ne; auto.
      * by rewrite lookup_total_insert_eq.
      * intros l' Hl'. rewrite lookup_insert_ne; auto.
Qed.

(** C10: [_analyze_state] appends the address of the current instruction,
    once, to the state's call offsets when the opcode is CALL, DELEGATECALL,
    STATICCALL or CALLCODE, and only then: the recorded offsets change if and
    only if the opcode is one of these four.  At RETURN and STOP (as at any
    other opcode) the recorded offsets and every existing list stay as they
    were, and a state that already had its annotation is returned unchanged
    on an unchanged heap. *)
Theorem analyze_state_appends_only_at_calls state w :
  let r := analyze state w in
  let op := opcode (get_current_instruction state) in
  let pc := instr_address (get_current_instruction state) in
  let before := recorded_call_offsets state (heap w) in
  let now := recorded_call_offsets r.1.2 (heap r.2) in
  let at_call :=
    op = "CALL" ∨ op = "DELEGATECALL" ∨ op = "STATICCALL" ∨ op = "CALLCODE" in
  (at_call →
     now = before ++ [pc]
     ∧ (∀ a, first_multiple_sends (annotations state) = Some a →
             heap r.2 = <[call_offsets a := before ++ [pc]]> (heap w)))
  ∧ (¬ at_call →
     now = before
     ∧ (∀ l, is_Some (heap w !! l) → heap r.2 !! l = heap w !! l)
     ∧ (∀ a, first_multiple_sends (annotations state) = Some a →
             heap r.2 = heap w))
  ∧ (op = "RETURN" ∨ op = "STOP" →
     now = before
     ∧ (∀ l, is_Some (heap w !! l) → heap r.2 !! l = heap w !! l)
     ∧ (∀ a, first_multiple_sends (annotations state) = Some a →
             r.1.2 = state ∧ heap r.2 = heap w))
  ∧ (now ≠ before ↔ at_call)
  ∧ (∀ l, is_Some (heap w !! l) →
          first_multiple_sends (annotations state) ≠ Some {| call_offsets := l |} →
          heap r.2 !! l = heap w !! l)
  ∧ (∀ a, first_multiple_sends (annotations state) = Some a → r.1.2 = state).
Proof.
  intros r op pc before now at_call.
  pose proof (analyze_by_opcode_test state w) as (Hframe & Hstate & Hcase).
  cbn zeta in Hframe, Hstate, Hcase.
  fold r in Hframe, Hstate, Hcase. fold before now pc in Hcase.
  assert (op = "RETURN" ∨ op = "STOP" → ¬ at_call) as Hterm.
  { subst at_call. intros [Hr|Hs] Hc; [rewrite Hr in Hc | rewrite Hs in Hc];
      destruct Hc as [?|[?|[?|?]]]; discriminate. }
  assert (before ++ [pc] ≠ before) as Hgrow.
  { intros Heq. apply (f_equal length) in Heq. rewrite length_app in Heq.
    simpl in Heq. lia. }
  case_bool_decide as Hop; rewrite call_opcodes_spec in Hop.
  - change at_call in Hop.
    destruct Hcase as [Hnow Hheap]. split_and!; try done.
    + intros Hrs. by destruct (Hterm Hrs).
    + split; [done|]. intros _. by rewrite Hnow.
  - change (¬ at_call) in Hop.
    destruct Hcase as (Hnow & Hlists & Hheap). split_and!; try done.
    + intros Hrs. split_and!; [done | done |].
      intros a Ha. split; [exact (Hstate a Ha) | exact (Hheap a Ha)].
Qed.

(** C7: with exactly one call offset recorded, [_analyze_state] at a
    RETURN or STOP returns no issue. *)
Theorem lone_call_not_reported state w (offset : Z) :
  opcode (get_current_instruction state) ∈ terminating_opcodes →
  recorded_call_offsets state (heap w) = [offset] →
  (analyze state w).1.1 = [].
Proof.
  intros Hop Hrec. unfold recorded_call_offsets in Hrec.
  destruct (first_multiple_sends (annotations state)) as [a|] eqn:Hf; [|done].
  rewrite (analyze_found _ _ _ Hf), (terminating_not_call _ Hop), Hrec.
  reflexivity.
Qed.

(** C4 (amended): CALL at 10 and CALL at 20 recorded, STOP at 30, and a
    solver that finds the path constraints satisfiable: [_analyze_state]
    returns exactly one issue, at address 20, of severity Low, whose
    transaction sequence is the model the solver returned, whatever that
    model holds (so it is non-empty whenever the model is). *)
Theorem two_calls_then_stop_reports_second state w
    (ts : TransactionSequence (Transaction:=Transaction)) (s' : SolverState) :
  current_instruction state = {| instr_address := 30; opcode := "STOP" |} →
  recorded_call_offsets state (heap w) = [10; 20] →
  get_transaction_sequence state (constraints (mstate state)) (solver w)
  = (Model ts, s') →
  ∃ issue,
    (analyze state w).1.1 = [issue]
    ∧ address issue = 20
    ∧ severity issue = "Low"
    ∧ transaction_sequence issue = ts
    ∧ (ts ≠ [] → transaction_sequence issue ≠ []).
Proof.
  intros Hinstr Hrec Hsat. unfold recorded_call_offsets in Hrec.
  destruct (first_multiple_sends (annotations state)) as [a|] eqn:Hf; [|done].
  exists (make_issue MULTIPLE_SENDS state 20 ts).
  rewrite (analyze_found _ _ _ Hf). unfold get_current_instruction.
  rewrite Hinstr, Hrec. cbn [opcode].
  replace (bool_decide ("STOP" ∈ call_opcodes)) with false by reflexivity.
  cbn [fst drop scan_offsets]. unfold mbind, M_bind, query_solver.
  rewrite Hsat. simpl. split_and!; done.
Qed.

(** C5: at a RETURN or STOP, [_analyze_state] goes through the recorded
    offsets after the first, in order, with one solver query each.  It
    returns at the first query answered with a model, with the single issue
    for the offset reached (earlier queries all ended in [UnsatError] and
    were skipped, no later query is made); it returns no issue only when
    every query ended in [UnsatError].  It never returns two issues. *)
Theorem analyze_state_stops_at_first_model state w :
  opcode (get_current_instruction state) ∈ terminating_opcodes →
  let later := drop 1 (recorded_call_offsets state (heap w)) in
  let r := analyze state w in
  (length r.1.1 ≤ 1)%nat
  ∧ match r.1.1 with
    | [] =>
        (∀ k, (k < length later)%nat → answer state k (solver w) = UnsatError)
        ∧ solver r.2 = after state (length later) (solver w)
    | [issue] =>
        ∃ (k : nat) offset ts,
          later !! k = Some offset
          ∧ (∀ j, (j < k)%nat → answer state j (solver w) = UnsatError)
          ∧ answer state k (solver w) = Model ts
          ∧ issue = make_issue MULTIPLE_SENDS state offset ts
          ∧ solver r.2 = after state (S k) (solver w)
    | _ :: _ :: _ => False
    end.
Proof.
  intros Hop later r.
  assert (match r.1.1 with
    | [] =>
        (∀ k, (k < length later)%nat → answer state k (solver w) = UnsatError)
        ∧ solver r.2 = after state (length later) (solver w)
    | [issue] =>
        ∃ (k : nat) offset ts,
          later !! k = Some offset
          ∧ (∀ j, (j < k)%nat → answer state j (solver w) = UnsatError)
          ∧ answer state k (solver w) = Model ts
          ∧ issue = make_issue MULTIPLE_SENDS state offset ts
          ∧ solver r.2 = after state (S k) (solver w)
    | _ :: _ :: _ => False
    end) as Hmain.
  { subst r later. unfold recorded_call_offsets.
    destruct (first_multiple_sends (annotations state)) as [a|] eqn:Hf.
    - rewrite (analyze_found _ _ _ Hf), (terminating_not_call _ Hop).
      cbn [fst snd]. apply scan_first_model.
    - rewrite (analyze_made _ _ Hf), (terminating_not_call _ Hop).
      simpl. split; [intros k Hk; lia | done]. }
  split; [|exact Hmain].
  destruct r.1.1 as [|issue [|issue' more]]; simpl; [lia | lia | done].
Qed.

(** *** [_execute] and its cache *)

(** The guard of [_execute] looks up the address of the current
    instruction, while the cache is filled with the addresses of the issues,
    which are call offsets.  At a RETURN or STOP whose own address is not
    cached, an issue is appended for the second recorded offset whether or
    not that offset is cached already. *)
Lemma execute_reports_cached_offset (self : MultipleSendsModule Transaction)
    state w (first offset : Z) (rest : list Z)
    (ts : TransactionSequence (Transaction:=Transaction)) (s' : SolverState) :
  opcode (get_current_instruction state) ∈ terminating_opcodes →
  instr_address (get_current_instruction state) ∉ _cache self →
  recorded_call_offsets state (heap w) = first :: offset :: rest →
  get_transaction_sequence state (constraints (mstate state)) (solver w)
  = (Model ts, s') →
  _issues (_execute get_transaction_sequence MULTIPLE_SENDS self state w).1.1
  = _issues self ++ [make_issue MULTIPLE_SENDS state offset ts].
Proof.
  intros Hop Hpc Hrec Hsat. unfold recorded_call_offsets in Hrec.
  destruct (first_multiple_sends (annotations state)) as [a|] eqn:Hf; [|done].
  unfold _execute. rewrite bool_decide_eq_false_2 by done.
  unfold mbind, M_bind. rewrite (analyze_found _ _ _ Hf), (terminating_not_call _ Hop).
  rewrite Hrec. cbn [drop scan_offsets]. unfold mbind, M_bind, query_solver.
  rewrite Hsat. reflexivity.
Qed.

End DetectorSpec.

(** C1 (what the code does): CALL at 10, CALL at 20, a fork, and both
    branches reaching the STOP at 30.  The findings list ends up with two
    issues at address 20; the cache holds 20 and never the STOP's 30. *)
Theorem forked_paths_report_same_address_twice :
  let d := (Scenario.forked_run Scenario.no_lists).1 in
  map address (_issues d) = [20; 20]
  ∧ length (filter (λ issue, address issue = 20) (_issues d)) = 2%nat
  ∧ elements (_cache d) = [20].
Proof. vm_compute. done. Qed.

(** Scenario 6 of the specification: the two calls are recorded but the
    solver reports the path infeasible, so nothing is found. *)
Example infeasible_path_reports_nothing :
  (_analyze_state Scenario.never_sat Scenario.SWC
     (Scenario.at_instruction 30 "STOP" [MultipleSends Scenario.tracker])
     (Scenario.one_list [10; 20])).1.1 = [].
Proof. vm_compute. done. Qed.

(** With the first query infeasible and the second one not, the issue is
    the one for the second of the later offsets. *)
Example skipped_offset_then_report :
  map address
    (_analyze_state Scenario.sat_after_first Scenario.SWC
       (Scenario.at_instruction 40 "RETURN" [MultipleSends Scenario.tracker])
       (Scenario.one_list [10; 20; 30])).1.1 = [30].
Proof. vm_compute. done. Qed.

(** A CALL at 20 on a state that recorded the CALL at 10. *)
Example call_appends_its_address :
  let r := _analyze_state Scenario.always_sat Scenario.SWC
             (Scenario.at_instruction 20 "CALL" [MultipleSends Scenario.tracker])
             (Scenario.one_list [10]) in
  r.1.1 = [] ∧ recorded_call_offsets r.1.2 (heap r.2) = [10; 20].
Proof. vm_compute. done. Qed.

(** A STOP on a state without the annotation: one is attached, empty. *)
Example stop_without_calls :
  let r := _analyze_state Scenario.always_sat Scenario.SWC
             (Scenario.at_instruction 5 "STOP" []) Scenario.no_lists in
  r.1.1 = []
  ∧ annotations r.1.2 = [MultipleSends Scenario.tracker]
  ∧ recorded_call_offsets r.1.2 (heap r.2) = [].
Proof. vm_compute. done. Qed.

(** C8 at a heap that holds the one list [[10; 20]]. *)
Lemma copy_is_independent_witness :
  is_Some (heap (Scenario.one_list [10; 20]) !! call_offsets Scenario.tracker)
  ∧ call_offsets (__copy__ Scenario.tracker (Scenario.one_list [10; 20])).1
    ≠ call_offsets Scenario.tracker.
Proof.
  assert (is_Some (heap (Scenario.one_list [10; 20])
                     !! call_offsets Scenario.tracker)) as Hlive.
  { exists [10; 20]. reflexivity. }
  split; [exact Hlive|].
  exact (proj1 (proj2 (proj2
           (copy_is_independent Scenario.tracker (Scenario.one_list [10; 20]) Hlive)))).
Defined.

(** C7 at a STOP after a single CALL at 10. *)
Lemma lone_call_not_reported_witness :
  (_analyze_state Scenario.always_sat Scenario.SWC
     (Scenario.at_instruction 30 "STOP" [MultipleSends Scenario.tracker])
     (Scenario.one_list [10])).1.1 = [].
Proof.
  apply (lone_call_not_reported Scenario.always_sat Scenario.SWC
           (Scenario.at_instruction 30 "STOP" [MultipleSends Scenario.tracker])
           (Scenario.one_list [10]) 10).
  - simpl. right. left.
  - reflexivity.
Defined.

(** C4 (as stated) fails when the model of the solver holds no
    transaction: the path constraints are found satisfiable, the single
    issue is at address 20 with severity Low, and its transaction sequence is
    empty. *)
Lemma empty_model_gives_empty_witness :
  Scenario.empty_model
    (Scenario.at_instruction 30 "STOP" [MultipleSends Scenario.tracker])
    ["callvalue == 0"] 0%nat = (Model [], 1%nat)
  ∧ recorded_call_offsets
      (Scenario.at_instruction 30 "STOP" [MultipleSends Scenario.tracker])
      (heap (Scenario.one_list [10; 20])) = [10; 20]
  ∧ ∃ issue,
      (_analyze_state Scenario.empty_model Scenario.SWC
         (Scenario.at_instruction 30 "STOP" [MultipleSends Scenario.tracker])
         (Scenario.one_list [10; 20])).1.1 = [issue]
      ∧ address issue = 20
      ∧ severity issue = "Low"
      ∧ transaction_sequence issue = [].
Proof.
  split_and!; [reflexivity | reflexivity |].
  exists (make_issue Scenario.SWC
            (Scenario.at_instruction 30 "STOP" [MultipleSends Scenario.tracker])
            20 []).
  split_and!; reflexivity.
Qed.

(** C4 (amended) with a solver that always answers with the same model. *)
Lemma two_calls_then_stop_reports_second_witness :
  ∃ issue,
    (_analyze_state Scenario.always_sat Scenario.SWC
       (Scenario.at_instruction 30 "STOP" [MultipleSends Scenario.tracker])
       (Scenario.one_list [10; 20])).1.1 = [issue]
    ∧ address issue = 20
    ∧ severity issue = "Low"
    ∧ transaction_sequence issue = ["withdraw()"]
    ∧ (["withdraw()"] ≠ [] → transaction_sequence issue ≠ []).
Proof.
  apply (two_calls_then_stop_reports_second Scenario.always_sat Scenario.SWC
           (Scenario.at_instruction 30 "STOP" [MultipleSends Scenario.tracker])
           (Scenario.one_list [10; 20]) ["withdraw()"] 1%nat).
  - reflexivity.
  - reflexivity.
  - reflexivity.
Defined.

(** The four call opcodes, each hooked at 20 after a call at 10, and the
    two terminating ones. *)
Example every_call_opcode_appends :
  map (λ op,
         let r := _analyze_state Scenario.always_sat Scenario.SWC
                    (Scenario.at_instruction 20 op [MultipleSends Scenario.tracker])
                    (Scenario.one_list [10]) in
         recorded_call_offsets r.1.2 (heap r.2))
    ["CALL"; "DELEGATECALL"; "STATICCALL"; "CALLCODE"; "RETURN"; "STOP"]
  = [[10; 20]; [10; 20]; [10; 20]; [10; 20]; [10]; [10]].
Proof. vm_compute. done. Qed.

(** C10 at a CALLCODE at 20 and at a RETURN at 20, after a call at 10. *)
Lemma analyze_state_appends_only_at_calls_witness :
  (let r := _analyze_state Scenario.always_sat Scenario.SWC
              (Scenario.at_instruction 20 "CALLCODE" [MultipleSends Scenario.tracker])
              (Scenario.one_list [10]) in
   recorded_call_offsets r.1.2 (heap r.2)
   = recorded_call_offsets
       (Scenario.at_instruction 20 "CALLCODE" [MultipleSends Scenario.tracker])
       (heap (Scenario.one_list [10])) ++ [20])
  ∧ (let r := _analyze_state Scenario.always_sat Scenario.SWC
                (Scenario.at_instruction 20 "RETURN" [MultipleSends Scenario.tracker])
                (Scenario.one_list [10]) in
     recorded_call_offsets r.1.2 (heap r.2)
     = recorded_call_offsets
         (Scenario.at_instruction 20 "RETURN" [MultipleSends Scenario.tracker])
         (heap (Scenario.one_list [10]))).
Proof.
  split.
  - refine (proj1 (proj1 (analyze_state_appends_only_at_calls
              Scenario.always_sat Scenario.SWC
              (Scenario.at_instruction 20 "CALLCODE" [MultipleSends Scenario.tracker])
              (Scenario.one_list [10])) _)).
    do 3 right. reflexivity.
  - refine (proj1 (proj1 (proj2 (proj2 (analyze_state_appends_only_at_calls
              Scenario.always_sat Scenario.SWC
              (Scenario.at_instruction 20 "RETURN" [MultipleSends Scenario.tracker])
              (Scenario.one_list [10])))) _)).
    left. reflexivity.
Defined.

(** C5 at a RETURN after three calls, the first query being infeasible. *)
Lemma analyze_state_stops_at_first_model_witness :
  (length
     (_analyze_state Scenario.sat_after_first Scenario.SWC
        (Scenario.at_instruction 40%Z "RETURN" [MultipleSends Scenario.tracker])
        (Scenario.one_list [10; 20; 30]%Z)).1.1 ≤ 1)%nat.
Proof.
  refine (proj1 (analyze_state_stops_at_first_model Scenario.sat_after_first
            Scenario.SWC
            (Scenario.at_instruction 40 "RETURN" [MultipleSends Scenario.tracker])
            (Scenario.one_list [10; 20; 30]) _)).
  simpl. left.
Defined.

End DetectorSpec.

(** * Further properties of the loader *)

Module DictMore.
Import Py DictFacts.

Section DictMore.
Context {V : Type}.
Implicit Types (d : dict V) (k : string) (v : V).

Lemma get_set_ne d k k' v : k ≠ k' → get (set d k v) k' = get d k'.
Proof.
  intros Hne. induction d as [|[k0 v0] d IH]; simpl.
  - by rewrite decide_False.
  - destruct (decide (k0 = k)) as [->|Hk0]; simpl.
    + by rewrite !decide_False.
    + by rewrite IH.
Qed.

Lemma get_some_contains d k v : get d k = Some v → contains d k = true.
Proof.
  destruct (contains d k) eqn:Hc; [done|].
  by rewrite (contains_false_get _ _ Hc).
Qed.

Lemma get_some_entry d k v : get d k = Some v → (k, v) ∈ items d.
Proof.
  unfold items. induction d as [|[k0 v0] d IH]; simpl; [done|].
  destruct (decide (k0 = k)) as [->|Hne].
  - intros [= ->]. left.
  - intros H. right. auto.
Qed.

Lemma entry_contains d k v : (k, v) ∈ items d → contains d k = true.
Proof.
  intros Hin. apply contains_keys. apply list_elem_of_fmap. by exists (k, v).
Qed.


Lemma set_same d k v : get d k = Some v → set d k v = d.
Proof.
  induction d as [|[k0 v0] d IH]; simpl; [done|].
  destruct (decide (k0 = k)) as [->|Hne].
  - by intros [= ->].
  - intros H. by rewrite IH.
Qed.

Lemma set_set d k v v' : set (set d k v) k v' = set d k v'.
Proof.
  induction d as [|[k0 v0] d IH]; simpl.
  - by rewrite decide_True.
  - destruct (decide (k0 = k)) as [->|Hne]; simpl.
    + by rewrite decide_True.
    + by rewrite decide_False, IH.
Qed.

Lemma set_entries d k v (P : string * V → Prop) :
  Forall P (items d) → P (k, v) → Forall P (items (set d k v)).
Proof.
  unfold items. intros Hd Hkv. induction Hd as [|[k0 v0] d H0 Hd IH]; simpl.
  - by constructor.
  - destruct (decide (k0 = k)) as [->|Hne]; by constructor.
Qed.

End DictMore.
End DictMore.

Module LoaderMore.
Import Py Loader DictFacts DictMore LoaderSpec Runs.

Section LoaderMore.
Context {LaserEVM : Type}.
Implicit Types (self : LaserPluginLoader LaserEVM) (b : PluginBuilder LaserEVM).
Implicit Types (name : string) (vm : LaserEVM).

(** What [load] does to the lookup of any name. *)
Lemma get_load self b name :
  get (laser_plugin_builders (load self b).1) name
  = match get (laser_plugin_builders self) name with
    | Some b' => Some b'
    | None => if decide (plugin_name b = name) then Some b else None
    end.
Proof.
  unfold load.
  destruct (contains (laser_plugin_builders self) (plugin_name b)) eqn:Hc; simpl.
  - destruct (get (laser_plugin_builders self) name) as [b'|] eqn:Hg; [done|].
    destruct (decide (plugin_name b = name)) as [<-|Hne]; [|done].
    apply contains_true_get in Hc. rewrite Hg in Hc. by destruct Hc.
  - destruct (decide (plugin_name b = name)) as [<-|Hne].
    + by rewrite get_set_eq, (contains_false_get _ _ Hc).
    + rewrite (get_set_ne _ _ _ _ Hne).
      by destruct (get (laser_plugin_builders self) name).
Qed.

Lemma is_enabled_get self name :
  is_enabled self name
  = match get (laser_plugin_builders self) name with
    | Some b => enabled b
    | None => false
    end.
Proof.
  unfold is_enabled.
  destruct (contains (laser_plugin_builders self) name) eqn:Hc; simpl; [done|].
  by rewrite (contains_false_get _ _ Hc).
Qed.

(** X1: loading a builder whose name is free puts it last in the registry,
    after which [is_enabled] of that name is the builder's own flag and
    [is_enabled] of every other name is what it was; only the info record
    is logged. *)
Theorem load_free_name self b :
  contains (laser_plugin_builders self) (plugin_name b) = false →
  items (laser_plugin_builders (load self b).1)
  = items (laser_plugin_builders self) ++ [(plugin_name b, b)]
  ∧ is_enabled (load self b).1 (plugin_name b) = enabled b
  ∧ (∀ name, name ≠ plugin_name b →
       is_enabled (load self b).1 name = is_enabled self name)
  ∧ (load self b).2 = [Info ("Loading laser plugin: " +:+ plugin_name b)].
Proof.
  intros Hfree. split_and!.
  - unfold load. rewrite Hfree. simpl. unfold items. by apply set_new.
  - rewrite is_enabled_get, get_load, (contains_false_get _ _ Hfree).
    by rewrite decide_True.
  - intros name Hne. rewrite !is_enabled_get, get_load.
    destruct (get (laser_plugin_builders self) name); [done|].
    by rewrite decide_False.
  - unfold load. by rewrite Hfree.
Qed.

(** X2: [enable] of a registered name returns [None] and sets the flag of
    that builder, keeping its name and what it constructs; the keys stay in
    their order and every other name keeps its builder. *)
Theorem enable_registered self name b :
  get (laser_plugin_builders self) name = Some b →
  (enable self name).1 = Returned VNone
  ∧ get (laser_plugin_builders (enable self name).2) name
    = Some (set_enabled b true)
  ∧ is_enabled (enable self name).2 name = true
  ∧ (∀ other, other ≠ name →
       get (laser_plugin_builders (enable self name).2) other
       = get (laser_plugin_builders self) other)
  ∧ (laser_plugin_builders (enable self name).2).*1
    = (laser_plugin_builders self).*1.
Proof.
  intros Hg. pose proof (get_some_contains _ _ _ Hg) as Hc.
  unfold enable at 1 2 4 5. rewrite Hc, Hg. simpl.
  assert (enable self name
          = (Returned VNone,
             {| laser_plugin_builders :=
                  set (laser_plugin_builders self) name (set_enabled b true) |}))
    as Hen.
  { unfold enable. by rewrite Hc, Hg. }
  split_and!.
  - done.
  - apply get_set_eq.
  - rewrite is_enabled_get, Hen. simpl. by rewrite get_set_eq.
  - intros other Hne. by apply get_set_ne.
  - by rewrite keys_set, Hc.
Qed.

(** X3: [enable] twice is [enable] once. *)
Theorem enable_idempotent self name :
  enable (enable self name).2 name = enable self name.
Proof.
  unfold enable at 2 3.
  destruct (contains (laser_plugin_builders self) name) eqn:Hc; simpl.
  - destruct (contains_true_get _ _ Hc) as [b Hg]. rewrite Hg. simpl.
    unfold enable. simpl. rewrite contains_set_eq, get_set_eq. simpl.
    by rewrite set_set.
  - unfold enable. by rewrite Hc.
Qed.

(** X4: in every loader made from a new one by [load] and [enable] calls,
    no key occurs twice and each key is the declared name of the builder
    stored under it. *)
Theorem reachable_registry_consistent self :
  reachable self →
  wf (laser_plugin_builders self)
  ∧ Forall (λ entry, entry.1 = plugin_name entry.2)
      (items (laser_plugin_builders self)).
Proof.
  induction 1 as [|self b _ [IHwf IHn]|self name _ [IHwf IHn]].
  - split; [apply wf_nil | constructor].
  - split; [by apply load_wf|]. unfold load.
    destruct (contains (laser_plugin_builders self) (plugin_name b)); simpl;
      [done|].
    by apply (set_entries _ _ _ (λ entry, entry.1 = plugin_name entry.2)).
  - split; [by apply enable_wf|]. unfold enable.
    destruct (contains (laser_plugin_builders self) name); simpl; [|done].
    destruct (get (laser_plugin_builders self) name) as [b|] eqn:Hg; simpl;
      [|done].
    apply (set_entries _ _ _ (λ entry, entry.1 = plugin_name entry.2));
      [done|].
    simpl. apply get_some_entry in Hg.
    rewrite Forall_forall in IHn. exact (IHn _ Hg).
Qed.

(** X5: after a series of [load] calls a name is bound to the builder it
    had before the series, if any, and otherwise to the first builder of
    the series that declares it: later builders of the same name are
    dropped. *)
Theorem load_all_first_wins self (builders : list (PluginBuilder LaserEVM)) name :
  get (laser_plugin_builders (load_all self builders)) name
  = match get (laser_plugin_builders self) name with
    | Some b => Some b
    | None => first_named name builders
    end.
Proof.
  revert self. induction builders as [|b builders IH]; intros self.
  - simpl. by destruct (get (laser_plugin_builders self) name).
  - unfold load_all. simpl. fold (load_all (load self b).1 builders).
    rewrite IH, get_load. unfold first_named. simpl.
    destruct (get (laser_plugin_builders self) name) as [b'|]; [done|].
    destruct (decide (plugin_name b = name)) as [Heq|Hne].
    + by rewrite bool_decide_eq_true_2.
    + by rewrite bool_decide_eq_false_2.
Qed.

Lemma instrument_loop_fold (entries : list (string * PluginBuilder LaserEVM))
    vm with_plugins :
  let chosen :=
    List.filter (λ entry, effective_enabled with_plugins entry.1 entry.2) entries in
  instrument_loop entries vm with_plugins
  = (foldl (λ vm' entry, initialize (__call__ entry.2 ()) vm') vm chosen,
     concat (map (λ entry, plugin_events entry.1) chosen)).
Proof.
  revert vm. induction entries as [|[n b] rest IH]; intros vm; [done|].
  cbn [instrument_loop List.filter fst snd].
  destruct (effective_enabled with_plugins n b); cbn [negb]; [|apply IH].
  rewrite IH. reflexivity.
Qed.

Lemma instrument_loop_nothing (entries : list (string * PluginBuilder LaserEVM))
    vm with_plugins :
  (∀ n b, (n, b) ∈ entries → effective_enabled with_plugins n b = false) →
  instrument_loop entries vm with_plugins = (vm, []).
Proof.
  induction entries as [|[n b] rest IH]; intros Hoff; [done|].
  cbn [instrument_loop]. rewrite (Hoff n b) by left. cbn [negb].
  apply IH. intros n' b' Hin. apply Hoff. by right.
Qed.

(** X6: instrumentation initialises the plugins of the picked entries one
    after the other in registration order, each on the executor the
    previous one left, and the trace holds their three events in the same
    order and nothing else. *)
Theorem instrument_in_registration_order self vm with_plugins :
  (instrument_virtual_machine self vm with_plugins).1
  = foldl (λ vm' entry, initialize (__call__ entry.2 ()) vm') vm
      (selected self with_plugins)
  ∧ (instrument_virtual_machine self vm with_plugins).2
    = concat (map (λ entry, plugin_events entry.1) (selected self with_plugins)).
Proof.
  unfold instrument_virtual_machine, selected.
  by rewrite instrument_loop_fold.
Qed.

(** X7: an override list that is not empty and names no registered plugin
    switches every plugin off, whatever its flag: nothing is logged, built
    or initialised, the executor comes back as it was, and no error is
    reported for the unknown names. *)
Theorem instrument_unregistered_override self vm (n : string) (override : list string) :
  (∀ name, name ∈ n :: override →
     contains (laser_plugin_builders self) name = false) →
  instrument_virtual_machine self vm (Some (n :: override)) = (vm, []).
Proof.
  intros Hunknown. unfold instrument_virtual_machine.
  apply instrument_loop_nothing. intros name b Hin.
  unfold effective_enabled. simpl. apply bool_decide_eq_false_2.
  intros Hlisted. apply entry_contains in Hin.
  rewrite (Hunknown _ Hlisted) in Hin. done.
Qed.


End LoaderMore.

(** X1 for the pruner loaded after [coverage]. *)
Lemma load_free_name_witness :
  is_enabled (load (load __init__ Scenario.coverage).1 Scenario.pruner).1
    "mutation-pruner" = false
  ∧ is_enabled (load (load __init__ Scenario.coverage).1 Scenario.pruner).1
      "coverage" = true.
Proof.
  pose proof (load_free_name (load __init__ Scenario.coverage).1 Scenario.pruner
                eq_refl) as (_ & H1 & H2 & _).
  split; [exact H1|]. rewrite (H2 "coverage"); [reflexivity | discriminate].
Defined.

(** X2 for the disabled pruner. *)
Lemma enable_registered_witness :
  (enable Scenario.two_plugins "mutation-pruner").1 = Returned VNone
  ∧ is_enabled (enable Scenario.two_plugins "mutation-pruner").2
      "mutation-pruner" = true.
Proof.
  pose proof (enable_registered Scenario.two_plugins "mutation-pruner"
                Scenario.pruner eq_refl) as (H1 & _ & H2 & _).
  split; [exact H1 | exact H2].
Defined.

(** X4 for two loads and one [enable]. *)
Lemma reachable_registry_consistent_witness :
  wf (laser_plugin_builders (enable Scenario.two_plugins "mutation-pruner").2).
Proof.
  refine (proj1 (reachable_registry_consistent
                   (enable Scenario.two_plugins "mutation-pruner").2 _)).
  apply reachable_enable. unfold Scenario.two_plugins.
  apply reachable_load, reachable_load, reachable_init.
Defined.

(** X7 for an override list with a misspelt name. *)
Lemma instrument_unregistered_override_witness :
  instrument_virtual_machine Scenario.two_plugins [] (Some ["coverge"]) = ([], []).
Proof.
  apply (instrument_unregistered_override Scenario.two_plugins [] "coverge" []).
  intros name Hin. apply list_elem_of_singleton in Hin. rewrite Hin. reflexivity.
Defined.


End LoaderMore.

(** * Further properties of the detector *)

Module DetectorMore.
Import Report MultipleSends DetectorSpec Runs.

Section DetectorMore.
Context {Constraints Transaction OtherAnnotation SolverState : Type}.
Variable get_transaction_sequence :
  GlobalState Constraints OtherAnnotation → Constraints → SolverState
  → SolverAnswer Transaction * SolverState.
Variable MULTIPLE_SENDS : string.

Local Abbreviation State := (GlobalState Constraints OtherAnnotation).
Local Abbreviation Finding := (Issue (TransactionSequence (Transaction:=Transaction))).
Local Abbreviation analyze :=
  (_analyze_state get_transaction_sequence MULTIPLE_SENDS).
Local Abbreviation execute :=
  (_execute get_transaction_sequence MULTIPLE_SENDS).
Local Abbreviation scan :=
  (scan_offsets get_transaction_sequence MULTIPLE_SENDS).
Local Abbreviation answer := (nth_answer get_transaction_sequence).
Local Abbreviation after := (solver_after get_transaction_sequence).

Implicit Types (state : State) (w : World SolverState).
Implicit Types (self : MultipleSendsModule Transaction).
Implicit Types (a : MultipleSendsAnnotation) (l : loc) (x : Z).

(** *** Helpers *)

Lemma scan_at_most_one state (offsets : list Z) w :
  (length (scan state offsets w).1 ≤ 1)%nat.
Proof.
  pose proof (scan_first_model get_transaction_sequence MULTIPLE_SENDS
                state offsets w) as H.
  destruct (scan state offsets w).1 as [|i [|i' more]]; simpl; [lia | lia | done].
Qed.

Lemma analyze_at_most_one state w : (length (analyze state w).1.1 ≤ 1)%nat.
Proof.
  destruct (first_multiple_sends (annotations state)) as [a|] eqn:Hf.
  - rewrite (analyze_found _ _ _ _ _ Hf). case_bool_decide; simpl; [lia|].
    apply scan_at_most_one.
  - rewrite (analyze_made _ _ _ _ Hf). case_bool_decide; simpl; lia.
Qed.

(** At a call opcode: no issue, no query, one address appended. *)
Lemma analyze_call state w :
  opcode (get_current_instruction state) ∈ call_opcodes →
  (analyze state w).1.1 = []
  ∧ solver (analyze state w).2 = solver w
  ∧ recorded_call_offsets (analyze state w).1.2 (heap (analyze state w).2)
    = recorded_call_offsets state (heap w)
      ++ [instr_address (get_current_instruction state)]
  ∧ (∀ l, is_Some (heap w !! l) →
          first_multiple_sends (annotations state) ≠ Some {| call_offsets := l |} →
          heap (analyze state w).2 !! l = heap w !! l).
Proof.
  intros Hop. unfold recorded_call_offsets.
  destruct (first_multiple_sends (annotations state)) as [a|] eqn:Hf.
  - rewrite (analyze_found _ _ _ _ _ Hf), bool_decide_eq_true_2 by done.
    cbn [fst snd]. rewrite Hf. split_and!; try done.
    + apply list_append_same.
    + intros l _ Hne. apply list_append_other. intros <-. by destruct a.
  - rewrite (analyze_made _ _ _ _ Hf), bool_decide_eq_true_2 by done.
    cbn [fst snd heap solver annotations annotate].
    rewrite (first_multiple_sends_app _ _ Hf). cbn [call_offsets].
    split_and!; try done.
    + by rewrite lookup_total_insert_eq.
    + intros l Hl _.
      assert (fresh (dom (heap w)) ≠ l) as Hne.
      { intros <-. by apply (is_fresh (dom (heap w))), elem_of_dom. }
      by rewrite !lookup_insert_ne.
Qed.

Lemma cache_after (issues : list Finding) (cache : gset Z) x :
  x ∈ foldl (λ c issue, c ∪ {[address issue]}) cache issues
  ↔ x ∈ cache ∨ ∃ issue, issue ∈ issues ∧ address issue = x.
Proof.
  revert cache. induction issues as [|i issues IH]; intros cache; simpl.
  - split; [auto | intros [?|(? & ?%elem_of_nil & _)]; done].
  - rewrite IH, elem_of_union, elem_of_singleton. split.
    + intros [[?| ->]|(j & Hj & <-)]; [by left | |].
      * right. exists i. split; [left | done].
      * right. exists j. split; [by right | done].
    + intros [?|(j & [-> |Hj]%elem_of_cons & <-)]; [by left; left | by left; right |].
      right. by exists j.
Qed.

(** [_execute] past its guard. *)
Lemma execute_uncached self state w :
  instr_address (get_current_instruction state) ∉ _cache self →
  execute self state w
  = (({| _cache := foldl (λ c issue, c ∪ {[address issue]}) (_cache self)
                     (analyze state w).1.1;
         _issues := _issues self ++ (analyze state w).1.1 |},
      (analyze state w).1.2),
     (analyze state w).2).
Proof.
  intros Hpc. unfold _execute. rewrite bool_decide_eq_false_2 by done.
  unfold mbind, M_bind. by destruct (analyze state w) as [[issues state'] w'].
Qed.

Lemma execute_cached self state w :
  instr_address (get_current_instruction state) ∈ _cache self →
  execute self state w = ((self, state), w).
Proof. intros Hpc. unfold _execute. by rewrite bool_decide_eq_true_2. Qed.

(** *** Properties *)

(** X9: if the cache holds exactly the addresses of the findings made so
    far, it does so again after [_execute]. *)
Theorem execute_cache_tracks_issues self state w :
  (∀ x, x ∈ _cache self ↔ ∃ issue, issue ∈ _issues self ∧ address issue = x) →
  ∀ x, x ∈ _cache (_execute get_transaction_sequence MULTIPLE_SENDS self state w).1.1
       ↔ ∃ issue,
           issue ∈ _issues
                     (_execute get_transaction_sequence MULTIPLE_SENDS self state w).1.1
           ∧ address issue = x.
Proof.
  intros Hinv x.
  destruct (decide (instr_address (get_current_instruction state) ∈ _cache self))
    as [Hpc|Hpc].
  - rewrite (execute_cached _ _ _ Hpc). apply Hinv.
  - rewrite (execute_uncached _ _ _ Hpc). cbn [fst _cache _issues].
    rewrite cache_after, Hinv. split.
    + intros [(i & Hi & <-)|(i & Hi & <-)]; exists i;
        (split; [apply elem_of_app; auto | done]).
    + intros (i & [Hi|Hi]%elem_of_app & <-); [left | right]; by exists i.
Qed.

(** X10: [_execute] only ever adds to its findings and to its cache: the
    old findings are kept in front, at most one issue is added, and the
    address of an added issue is cached. *)
Theorem execute_findings_grow self state w :
  let self' := (_execute get_transaction_sequence MULTIPLE_SENDS self state w).1.1 in
  ∃ new : list Finding,
    _issues self' = _issues self ++ new
    ∧ (length new ≤ 1)%nat
    ∧ _cache self ⊆ _cache self'
    ∧ (∀ issue, issue ∈ new → address issue ∈ _cache self').
Proof.
  cbn zeta.
  destruct (decide (instr_address (get_current_instruction state) ∈ _cache self))
    as [Hpc|Hpc].
  - rewrite (execute_cached _ _ _ Hpc). exists []. cbn [fst].
    rewrite app_nil_r. split_and!; [done | simpl; lia | done |].
    by intros issue ?%elem_of_nil.
  - rewrite (execute_uncached _ _ _ Hpc). exists (analyze state w).1.1.
    cbn [fst _cache _issues]. split_and!.
    + done.
    + apply analyze_at_most_one.
    + intros x Hx. apply cache_after. by left.
    + intros issue Hi. apply cache_after. right. by exists issue.
Qed.

(** X11: at a call-family opcode [_execute] leaves the detector and the
    solver alone, and records the address of the instruction unless that
    address is cached: a call at an address where an issue was reported
    before is not added to the state's call offsets. *)
Theorem execute_call_recorded_unless_cached self state w :
  opcode (get_current_instruction state) ∈ call_opcodes →
  (execute self state w).1.1 = self
  ∧ solver (execute self state w).2 = solver w
  ∧ recorded_call_offsets (execute self state w).1.2 (heap (execute self state w).2)
    = if bool_decide (instr_address (get_current_instruction state) ∈ _cache self)
      then recorded_call_offsets state (heap w)
      else (recorded_call_offsets state (heap w)
            ++ [instr_address (get_current_instruction state)]).
Proof.
  intros Hop. case_bool_decide as Hpc.
  - by rewrite (execute_cached _ _ _ Hpc).
  - rewrite (execute_uncached _ _ _ Hpc). cbn [fst snd].
    destruct (analyze_call state w Hop) as (Hnone & Hsolver & Hrec & _).
    rewrite Hnone. simpl. rewrite app_nil_r. split_and!; [by destruct self | done..].
Qed.

(** X12: every issue that [_analyze_state] returns sits at one of the
    recorded call offsets after the first, was produced at an opcode outside
    the call family, carries the fixed title, severity and classification and
    the contract, function, bytecode and gas bounds of the state, and its
    transaction sequence is a model that the solver returned for the state's
    constraints. *)
Theorem analyze_issue_shape state w (issue : Finding) :
  issue ∈ (analyze state w).1.1 →
  address issue ∈ drop 1 (recorded_call_offsets state (heap w))
  ∧ (opcode (get_current_instruction state) ∉ call_opcodes)
  ∧ severity issue = "Low"
  ∧ swc_id issue = MULTIPLE_SENDS
  ∧ title issue = "Multiple Calls in a Single Transaction"
  ∧ contract issue = contract_name (active_account (environment state))
  ∧ function_name issue = active_function_name (environment state)
  ∧ bytecode issue = code_bytecode (code (environment state))
  ∧ gas_used issue = (min_gas_used (mstate state), max_gas_used (mstate state))
  ∧ ∃ k, answer state k (solver w) = Model (transaction_sequence issue).
Proof.
  unfold recorded_call_offsets.
  destruct (first_multiple_sends (annotations state)) as [a|] eqn:Hf.
  - rewrite (analyze_found _ _ _ _ _ Hf). case_bool_decide as Hop; cbn [fst].
    + by intros ?%elem_of_nil.
    + pose proof (scan_first_model get_transaction_sequence MULTIPLE_SENDS
                    state (drop 1 (heap w !!! call_offsets a)) w) as H.
      destruct (scan state (drop 1 (heap w !!! call_offsets a)) w).1
        as [|i [|i' more]]; [by intros ?%elem_of_nil | | done].
      intros ->%list_elem_of_singleton.
      destruct H as (k & offset & ts & Hk & _ & Hat & -> & _). simpl.
      split_and!; try done.
      * apply list_elem_of_lookup. by exists k.
      * by exists k.
  - rewrite (analyze_made _ _ _ _ Hf). case_bool_decide; cbn [fst];
      by intros ?%elem_of_nil.
Qed.

Lemma scan_all_unsat state (offsets : list Z) w :
  (∀ s, (get_transaction_sequence state (constraints (mstate state)) s).1
        = UnsatError) →
  (scan state offsets w).1 = [].
Proof.
  intros Hunsat. revert w. induction offsets as [|offset rest IH]; intros w;
    [done|].
  cbn [scan_offsets]. unfold mbind, M_bind, query_solver.
  pose proof (Hunsat (solver w)) as Hq.
  destruct (get_transaction_sequence state (constraints (mstate state)) (solver w))
    as [r s']. simpl in Hq. subst r. apply IH.
Qed.

(** X13: when the solver's answer for the state does not depend on the
    solver's own state, a RETURN or STOP after two or more recorded calls
    reports the second recorded offset or nothing: offsets after the second
    are never reported. *)
Theorem stateless_solver_reports_second_offset state w
    (verdict : SolverAnswer Transaction) (first second : Z) (rest : list Z) :
  (∀ s, (get_transaction_sequence state (constraints (mstate state)) s).1
        = verdict) →
  opcode (get_current_instruction state) ∈ terminating_opcodes →
  recorded_call_offsets state (heap w) = first :: second :: rest →
  (analyze state w).1.1
  = match verdict with
    | Model ts => [make_issue MULTIPLE_SENDS state second ts]
    | UnsatError => []
    end.
Proof.
  intros Hverdict Hop Hrec. unfold recorded_call_offsets in Hrec.
  destruct (first_multiple_sends (annotations state)) as [a|] eqn:Hf; [|done].
  rewrite (analyze_found _ _ _ _ _ Hf), (terminating_not_call _ Hop), Hrec.
  cbn [fst drop]. destruct verdict as [ts|].
  - cbn [scan_offsets]. unfold mbind, M_bind, query_solver.
    pose proof (Hverdict (solver w)) as Hq.
    destruct (get_transaction_sequence state (constraints (mstate state)) (solver w))
      as [r s']. simpl in Hq. by subst r.
  - by apply scan_all_unsat.
Qed.

(** X14: [_analyze_state] queries the solver at most once for each recorded
    offset after the first, always about the constraints of the state, and
    not at all at a call-family opcode. *)
Theorem analyze_queries_bounded state w :
  ∃ n : nat,
    solver (analyze state w).2 = after state n (solver w)
    ∧ (n ≤ length (drop 1 (recorded_call_offsets state (heap w))))%nat
    ∧ (opcode (get_current_instruction state) ∈ call_opcodes → n = 0%nat).
Proof.
  unfold recorded_call_offsets.
  destruct (first_multiple_sends (annotations state)) as [a|] eqn:Hf.
  - rewrite (analyze_found _ _ _ _ _ Hf). case_bool_decide as Hop; cbn [snd].
    + exists 0%nat. split_and!; [done | lia | done].
    + pose proof (scan_first_model get_transaction_sequence MULTIPLE_SENDS
                    state (drop 1 (heap w !!! call_offsets a)) w) as H.
      destruct (scan state (drop 1 (heap w !!! call_offsets a)) w).1
        as [|i [|i' more]]; [| |done].
      * destruct H as [_ Hs]. eexists. split_and!; [exact Hs | lia | done].
      * destruct H as (k & offset & ts & Hk & _ & _ & _ & Hs).
        exists (S k). split_and!; [exact Hs | | done].
        apply lookup_lt_Some in Hk. lia.
  - rewrite (analyze_made _ _ _ _ Hf). exists 0%nat.
    case_bool_decide; cbn [snd solver]; split_and!; done || lia.
Qed.

(** X15: hooking a state at a series of call-family instructions records
    their addresses in that order after what was recorded before, returns no
    issue and never queries the solver. *)
Theorem calls_recorded_in_order (instructions : list Instruction) state w :
  Forall (λ instruction, opcode instruction ∈ call_opcodes) instructions →
  let r := analyze_all get_transaction_sequence MULTIPLE_SENDS state instructions w in
  r.1.1 = []
  ∧ solver r.2 = solver w
  ∧ recorded_call_offsets r.1.2 (heap r.2)
    = recorded_call_offsets state (heap w) ++ map instr_address instructions.
Proof.
  intros Hcalls. cbn zeta. revert state w.
  induction Hcalls as [|instruction rest Hop _ IH]; intros state w.
  - simpl. by rewrite app_nil_r.
  - cbn [analyze_all]. unfold mbind, M_bind.
    destruct (analyze_call (with_instruction state instruction) w Hop)
      as (Hnone & Hsolver & Hrec & _).
    destruct (analyze (with_instruction state instruction) w)
      as [[issues state1] w1]. cbn [fst snd] in *.
    specialize (IH state1 w1).
    destruct (analyze_all _ _ state1 rest w1) as [[more state2] w2].
    cbn [fst snd] in *. destruct IH as (Hmore & Hsolver2 & Hrec2).
    subst issues more. unfold mret, M_ret. cbn [fst snd app].
    split_and!; [done | congruence |].
    rewrite Hrec2, Hrec. cbn [map]. by rewrite <-app_assoc.
Qed.

(** *** [__copy__] and what follows a fork *)

(** X16: [__copy__] changes no list that existed, and creates two: the one
    made by [__init__], left empty and unused, and the one the result holds,
    with the contents of the original.  The solver is not involved. *)
Theorem copy_allocates_two a w :
  (∀ l, is_Some (heap w !! l) → heap (__copy__ a w).2 !! l = heap w !! l)
  ∧ heap w !! call_offsets (__copy__ a w).1 = None
  ∧ heap (__copy__ a w).2 !! call_offsets (__copy__ a w).1
    = Some (heap w !!! call_offsets a)
  ∧ size (heap (__copy__ a w).2) = S (S (size (heap w)))
  ∧ solver (__copy__ a w).2 = solver w.
Proof.
  rewrite copy_unfold. cbn [fst snd heap solver call_offsets].
  pose proof (is_fresh (dom (heap w))) as Hfresh1.
  set (l1 := fresh (dom (heap w))) in *.
  pose proof (is_fresh (dom (<[l1:=[]]> (heap w)))) as Hfresh2.
  set (l2 := fresh (dom (<[l1:=[]]> (heap w)))) in *.
  apply not_elem_of_dom in Hfresh1, Hfresh2.
  assert (l1 ≠ l2) as Hne.
  { intros Heq. rewrite <-Heq, lookup_insert_eq in Hfresh2. done. }
  assert (heap w !! l2 = None) as Hl2.
  { by rewrite lookup_insert_ne in Hfresh2. }
  split_and!.
  - intros l [xs Hl]. rewrite !lookup_insert_ne; [done | |]; congruence.
  - done.
  - rewrite lookup_insert_eq. f_equal.
    destruct (decide (l1 = call_offsets a)) as [<-|Hne1].
    + rewrite lookup_total_insert_eq. symmetry.
      rewrite lookup_total_alt, Hfresh1. done.
    + by rewrite lookup_total_insert_ne.
  - rewrite !map_size_insert_None; done.
  - done.
Qed.

(** X17: after a fork in which the child holds the [__copy__] of the
    parent's annotation, a call hooked on the child is recorded for the child
    only, and a call hooked on the parent for the parent only. *)
Theorem forked_siblings_record_apart (parent child : State) a w :
  first_multiple_sends (annotations parent) = Some a →
  is_Some (heap w !! call_offsets a) →
  first_multiple_sends (annotations child) = Some (__copy__ a w).1 →
  opcode (get_current_instruction child) ∈ call_opcodes →
  opcode (get_current_instruction parent) ∈ call_opcodes →
  let forked := (__copy__ a w).2 in
  recorded_call_offsets child (heap forked) = recorded_call_offsets parent (heap w)
  ∧ recorded_call_offsets parent (heap forked) = recorded_call_offsets parent (heap w)
  ∧ (let r := analyze child forked in
     recorded_call_offsets r.1.2 (heap r.2)
     = recorded_call_offsets parent (heap w)
       ++ [instr_address (get_current_instruction child)]
     ∧ recorded_call_offsets parent (heap r.2)
       = recorded_call_offsets parent (heap w))
  ∧ (let r := analyze parent forked in
     recorded_call_offsets r.1.2 (heap r.2)
     = recorded_call_offsets parent (heap w)
       ++ [instr_address (get_current_instruction parent)]
     ∧ recorded_call_offsets child (heap r.2)
       = recorded_call_offsets parent (heap w)).
Proof.
  intros Hparent Hlive Hchild Hopc Hopp forked.
  destruct (copy_allocates_two a w) as (Hframe & Hnew & Hcopy & _ & _).
  fold forked in Hframe, Hcopy.
  set (r := (__copy__ a w).1) in *.
  assert (call_offsets r ≠ call_offsets a) as Hne.
  { intros Heq. rewrite Heq in Hnew. rewrite Hnew in Hlive. by destruct Hlive. }
  assert (heap forked !!! call_offsets a = heap w !!! call_offsets a) as Ha.
  { rewrite !lookup_total_alt. by rewrite (Hframe _ Hlive). }
  assert (heap forked !!! call_offsets r = heap w !!! call_offsets a) as Hr.
  { by rewrite lookup_total_alt, Hcopy. }
  assert (recorded_call_offsets child (heap forked)
          = recorded_call_offsets parent (heap w)) as Hc0.
  { unfold recorded_call_offsets. by rewrite Hchild, Hparent. }
  assert (recorded_call_offsets parent (heap forked)
          = recorded_call_offsets parent (heap w)) as Hp0.
  { unfold recorded_call_offsets. by rewrite Hparent. }
  split_and!; [done | done | |].
  - destruct (analyze_call child forked Hopc) as (_ & _ & Hrec & Hothers).
    cbn zeta. split; [by rewrite Hrec, Hc0|].
    rewrite <-Hp0. unfold recorded_call_offsets. rewrite Hparent.
    rewrite !lookup_total_alt. f_equal. apply Hothers.
    + rewrite (Hframe _ Hlive). done.
    + rewrite Hchild. intros [= Heq]. apply Hne.
      exact Heq.
  - destruct (analyze_call parent forked Hopp) as (_ & _ & Hrec & Hothers).
    cbn zeta. split; [by rewrite Hrec, Hp0|].
    rewrite <-Hc0. unfold recorded_call_offsets. rewrite Hchild.
    rewrite !lookup_total_alt. f_equal. apply Hothers.
    + rewrite Hcopy. done.
    + rewrite Hparent. intros [= Heq]. apply Hne.
      exact (eq_sym (f_equal call_offsets Heq)).
Qed.

End DetectorMore.

(** X9 for the new detector at a STOP after two calls. *)
Lemma execute_cache_tracks_issues_witness :
  20 ∈ _cache
         (_execute Scenario.always_sat Scenario.SWC detector
            (Scenario.at_instruction 30 "STOP" [MultipleSends Scenario.tracker])
            (Scenario.one_list [10; 20])).1.1
  ↔ ∃ issue,
      issue ∈ _issues
                (_execute Scenario.always_sat Scenario.SWC detector
                   (Scenario.at_instruction 30 "STOP"
                      [MultipleSends Scenario.tracker])
                   (Scenario.one_list [10; 20])).1.1
      ∧ address issue = 20.
Proof.
  apply (execute_cache_tracks_issues Scenario.always_sat Scenario.SWC detector).
  intros x. split.
  - intros Hx. by apply not_elem_of_empty in Hx.
  - intros (issue & Hi & _). by apply elem_of_nil in Hi.
Defined.

(** X11 for a CALL at 20 after the CALL at 10. *)
Lemma execute_call_recorded_unless_cached_witness :
  (_execute Scenario.always_sat Scenario.SWC detector
     (Scenario.at_instruction 20 "CALL" [MultipleSends Scenario.tracker])
     (Scenario.one_list [10])).1.1 = detector.
Proof.
  refine (proj1 (execute_call_recorded_unless_cached Scenario.always_sat
            Scenario.SWC detector
            (Scenario.at_instruction 20 "CALL" [MultipleSends Scenario.tracker])
            (Scenario.one_list [10]) _)).
  simpl. left.
Defined.

(** X12 for the issue of the STOP after two calls. *)
Lemma analyze_issue_shape_witness :
  severity
    (make_issue Scenario.SWC
       (Scenario.at_instruction 30 "STOP" [MultipleSends Scenario.tracker])
       20 ["withdraw()"]) = "Low".
Proof.
  refine (proj1 (proj2 (proj2
    (analyze_issue_shape Scenario.always_sat Scenario.SWC
       (Scenario.at_instruction 30 "STOP" [MultipleSends Scenario.tracker])
       (Scenario.one_list [10; 20])
       (make_issue Scenario.SWC
          (Scenario.at_instruction 30 "STOP" [MultipleSends Scenario.tracker])
          20 ["withdraw()"]) _)))).
  apply list_elem_of_singleton. reflexivity.
Defined.

(** X13 for a solver that always returns the same model, after three calls. *)
Lemma stateless_solver_reports_second_offset_witness :
  (_analyze_state Scenario.always_sat Scenario.SWC
     (Scenario.at_instruction 40 "STOP" [MultipleSends Scenario.tracker])
     (Scenario.one_list [10; 20; 30])).1.1
  = [make_issue Scenario.SWC
       (Scenario.at_instruction 40 "STOP" [MultipleSends Scenario.tracker])
       20 ["withdraw()"]].
Proof.
  apply (stateless_solver_reports_second_offset Scenario.always_sat Scenario.SWC
           (Scenario.at_instruction 40 "STOP" [MultipleSends Scenario.tracker])
           (Scenario.one_list [10; 20; 30]) (Model ["withdraw()"]) 10 20 [30]).
  - intros s. reflexivity.
  - simpl. right. left.
  - reflexivity.
Defined.

(** X15 for a CALL at 10 and a DELEGATECALL at 20 on a state without
    annotation. *)
Lemma calls_recorded_in_order_witness :
  (analyze_all Scenario.always_sat Scenario.SWC
     (Scenario.at_instruction 0 "PUSH1" [])
     [{| instr_address := 10; opcode := "CALL" |};
      {| instr_address := 20; opcode := "DELEGATECALL" |}]
     Scenario.no_lists).1.1 = [].
Proof.
  refine (proj1 (calls_recorded_in_order Scenario.always_sat Scenario.SWC
            [{| instr_address := 10; opcode := "CALL" |};
             {| instr_address := 20; opcode := "DELEGATECALL" |}]
            (Scenario.at_instruction 0 "PUSH1" []) Scenario.no_lists _)).
  constructor; [simpl; left|].
  constructor; [simpl; right; left|].
  constructor.
Defined.

(** X17 for a fork after the calls at 10 and 20. *)
Lemma forked_siblings_record_apart_witness :
  recorded_call_offsets
    (Scenario.at_instruction 27 "STATICCALL"
       [MultipleSends (__copy__ Scenario.tracker (Scenario.one_list [10; 20])).1])
    (heap (__copy__ Scenario.tracker (Scenario.one_list [10; 20])).2)
  = recorded_call_offsets
      (Scenario.at_instruction 25 "CALL" [MultipleSends Scenario.tracker])
      (heap (Scenario.one_list [10; 20])).
Proof.
  refine (proj1 (forked_siblings_record_apart Scenario.always_sat Scenario.SWC
    (Scenario.at_instruction 25 "CALL" [MultipleSends Scenario.tracker])
    (Scenario.at_instruction 27 "STATICCALL"
       [MultipleSends (__copy__ Scenario.tracker (Scenario.one_list [10; 20])).1])
    Scenario.tracker (Scenario.one_list [10; 20]) eq_refl _ eq_refl _ _)).
  - exists [10; 20]. reflexivity.
  - simpl. do 2 right. left.
  - simpl. left.
Defined.

End DetectorMore.
